(** * drizzle-uncache: a shallow embedding of the unstorage cache adapter

    The development follows the TypeScript sources:
    - [utils.ts]: [pickConfigWithTtl], [normalizeTables], [normalizeTags],
      [encode], [makeTablesKey], [decodeTablesKey], [parseIndexKey];
    - [unstorage-cache.ts]: the class [UnstorageCache] with [get], [put],
      [onMutate], [invalidateTag], [invalidateTags], [invalidateTables],
      [dropEntry], [valueKey], [indexKey], [isExpired], [toExpiresAt],
      [tagMapKey] and [setMany].

    Conventions of the embedding:
    - a JavaScript string is the list of its UTF-16 code units;
    - the numbers of the sources are timestamps and TTLs, taken as integers;
    - [Date.now()] is the argument [now] of the operation that calls it;
    - [undefined] is [None], and a function that may throw returns a
      [result];
    - an [async] method is a computation over the storage backend, a finite
      map from keys to values with the journal of the calls it received;
    - debug logging is left out. *)

From Stdlib Require Import ZArith NArith Lia List String Ascii.
From stdpp Require Import base option list gmap sorting.

Set Default Proof Using "Type".

(** ** JavaScript strings *)

Module Js.

(** A string is the list of its UTF-16 code units. *)
Abbreviation jsstring := (list N).

(** String literals of the sources, all ASCII. *)
Definition str (s : string) : jsstring :=
  map N_of_ascii (list_ascii_of_string s).

(** Exceptions raised by the built-ins the sources call. *)
Inductive exn := URIError.

Inductive result (A : Type) :=
| Ok (a : A)
| Throw (e : exn).
Arguments Ok {A} a.
Arguments Throw {A} e.

Definition rbind {A B} (r : result A) (k : A → result B) : result B :=
  match r with
  | Ok a => k a
  | Throw e => Throw e
  end.

Definition rmap {A B} (f : A → B) (r : result A) : result B :=
  rbind r (λ a, Ok (f a)).

(** [Array.prototype.map] with a callback that may throw: the first
    exception aborts the traversal. *)
Fixpoint mapR {A B} (f : A → result B) (l : list A) : result (list B) :=
  match l with
  | [] => Ok []
  | x :: l' => rbind (f x) (λ y, rmap (cons y) (mapR f l'))
  end.

(** [s.startsWith(p)] *)
Fixpoint startsWith (p s : jsstring) : bool :=
  match p, s with
  | [], _ => true
  | a :: p', b :: s' => (a =? b)%N && startsWith p' s'
  | _ :: _, [] => false
  end.

(** [s.split(sep)] for a one-unit separator: the parts between the
    occurrences of [sep]; the empty string splits into one empty part. *)
Fixpoint split (sep : N) (s : jsstring) : list jsstring :=
  match s with
  | [] => [[]]
  | c :: s' =>
      if (c =? sep)%N then [] :: split sep s'
      else match split sep s' with
           | p :: ps => (c :: p) :: ps
           | [] => [[c]]
           end
  end.

(** [parts.join(sep)] *)
Fixpoint join (sep : jsstring) (parts : list jsstring) : jsstring :=
  match parts with
  | [] => []
  | [p] => p
  | p :: ps => p ++ sep ++ join sep ps
  end.

(** The order [Array.prototype.sort] uses without a comparator: strings
    compared code unit by code unit, a proper prefix first. *)
Fixpoint leb (a b : jsstring) : bool :=
  match a, b with
  | [], _ => true
  | _ :: _, [] => false
  | x :: a', y :: b' => (x <? y)%N || ((x =? y)%N && leb a' b')
  end.

Definition le (a b : jsstring) : Prop := leb a b = true.

#[export] Instance le_dec : RelDecision le.
Proof. intros a b. unfold le. apply _. Defined.

(** [arr.sort()]: the default order is total and antisymmetric, so every
    sorting algorithm returns the same array; merge sort stands for the
    engine's. *)
Definition sort (l : list jsstring) : list jsstring := merge_sort le l.

(** A [Set<string>]: its members in order of first insertion. *)
Definition setAdd (set : list jsstring) (x : jsstring) : list jsstring :=
  if decide (x ∈ set) then set else set ++ [x].

(** [new Set(l)] *)
Definition newSet (l : list jsstring) : list jsstring := foldl setAdd [] l.

(** [Array.from(new Set(l))] *)
Definition arrayFromSet (l : list jsstring) : list jsstring := newSet l.

End Js.

(** ** The URI built-ins: [encodeURIComponent] and [decodeURIComponent]

    They belong to the language, not to the repository. The definitions
    follow the abstract operations Encode and Decode of ECMA-262 (sections
    on URI handling functions), with the empty extra/preserve sets that
    the two [...Component] functions pass. *)

Module Uri.
Import Js.
Local Open Scope N_scope.

(** The unescaped set of [encodeURIComponent]: ASCII letters, digits,
    underscore and [-.!~*'()]. *)
Definition isUnescaped (c : N) : bool :=
  ((65 <=? c) && (c <=? 90)) || ((97 <=? c) && (c <=? 122)) ||
  ((48 <=? c) && (c <=? 57)) ||
  existsb (N.eqb c) [95; 45; 46; 33; 126; 42; 39; 40; 41].

Definition isLeadSurrogate (c : N) : bool := (0xD800 <=? c) && (c <=? 0xDBFF).
Definition isTrailSurrogate (c : N) : bool := (0xDC00 <=? c) && (c <=? 0xDFFF).

(** UTF16SurrogatePairToCodePoint *)
Definition surrogatePairToCodePoint (lead trail : N) : N :=
  (lead - 0xD800) * 0x400 + (trail - 0xDC00) + 0x10000.

(** UTF16EncodeCodePoint *)
Definition utf16EncodeCodePoint (cp : N) : jsstring :=
  if cp <=? 0xFFFF then [cp]
  else [(cp - 0x10000) / 0x400 + 0xD800; (cp - 0x10000) mod 0x400 + 0xDC00].

(** The UTF-8 transformation of a code point into octets. *)
Definition utf8Encode (cp : N) : list N :=
  if cp <? 0x80 then [cp]
  else if cp <? 0x800 then [0xC0 + cp / 64; 0x80 + cp mod 64]
  else if cp <? 0x10000 then
    [0xE0 + cp / 4096; 0x80 + (cp / 64) mod 64; 0x80 + cp mod 64]
  else
    [0xF0 + cp / 262144; 0x80 + (cp / 4096) mod 64;
     0x80 + (cp / 64) mod 64; 0x80 + cp mod 64].

(** An uppercase hexadecimal digit. *)
Definition hexDigit (d : N) : N := if d <? 10 then 48 + d else 55 + d.

(** ["%"] followed by the octet as two uppercase hexadecimal digits. *)
Definition pctEncode (octet : N) : jsstring :=
  [37; hexDigit (octet / 16); hexDigit (octet mod 16)].

(** Encode: an unescaped unit is copied; otherwise the code point at the
    position is taken (a surrogate pair counts as one code point, an
    unpaired surrogate throws [URIError]) and its octets are escaped. *)
Fixpoint encodeURIComponent (s : jsstring) : result jsstring :=
  match s with
  | [] => Ok []
  | c :: rest =>
      if isUnescaped c then rmap (cons c) (encodeURIComponent rest)
      else if isTrailSurrogate c then Throw URIError
      else if isLeadSurrogate c then
        match rest with
        | d :: rest' =>
            if isTrailSurrogate d then
              rmap (app (flat_map pctEncode
                           (utf8Encode (surrogatePairToCodePoint c d))))
                   (encodeURIComponent rest')
            else Throw URIError
        | [] => Throw URIError
        end
      else rmap (app (flat_map pctEncode (utf8Encode c)))
                (encodeURIComponent rest)
  end.

(** [String.prototype.isWellFormed]: code units in range and no unpaired
    surrogate. *)
Fixpoint isWellFormed (s : jsstring) : bool :=
  match s with
  | [] => true
  | c :: rest =>
      if isTrailSurrogate c then false
      else if isLeadSurrogate c then
        match rest with
        | d :: rest' => isTrailSurrogate d && isWellFormed rest'
        | [] => false
        end
      else (c <? 0x10000) && isWellFormed rest
  end.

Definition hexValue (c : N) : option N :=
  if (48 <=? c) && (c <=? 57) then Some (c - 48)
  else if (65 <=? c) && (c <=? 70) then Some (c - 55)
  else if (97 <=? c) && (c <=? 102) then Some (c - 87)
  else None.

(** ParseHexOctet at the head of [s]: two hexadecimal digits. *)
Definition parseHexOctet (s : jsstring) : option N :=
  match s with
  | h :: l :: _ =>
      match hexValue h, hexValue l with
      | Some hi, Some lo => Some (16 * hi + lo)
      | _, _ => None
      end
  | _ => None
  end.

(** The number of leading 1 bits of an octet; 5 stands for "more than 4". *)
Definition leadingOnes (b : N) : nat :=
  if b <? 0x80 then 0%nat
  else if b <? 0xC0 then 1%nat
  else if b <? 0xE0 then 2%nat
  else if b <? 0xF0 then 3%nat
  else if b <? 0xF8 then 4%nat
  else 5%nat.

(** The [j] continuation escapes ["%XX"] that must follow a leading octet. *)
Fixpoint readContinuation (j : nat) (s : jsstring) : result (list N) :=
  match j with
  | O => Ok []
  | S j' =>
      match s with
      | c :: s' =>
          if c =? 37 then
            match parseHexOctet s' with
            | Some b => rmap (cons b) (readContinuation j' (drop 2 s'))
            | None => Throw URIError
            end
          else Throw URIError
      | [] => Throw URIError
      end
  end.

Definition isContinuation (b : N) : bool := (0x80 <=? b) && (b <=? 0xBF).

(** The code point of a valid UTF-8 encoding of two to four octets: the
    continuation octets have the form 10xxxxxx, the encoding is the
    shortest one, and the value is a Unicode scalar value. *)
Definition utf8Decode (octets : list N) : option N :=
  match octets with
  | [b0; b1] =>
      let v := (b0 - 0xC0) * 64 + (b1 - 0x80) in
      if isContinuation b1 && (0x80 <=? v) then Some v else None
  | [b0; b1; b2] =>
      let v := (b0 - 0xE0) * 4096 + (b1 - 0x80) * 64 + (b2 - 0x80) in
      if isContinuation b1 && isContinuation b2 && (0x800 <=? v)
         && negb ((0xD800 <=? v) && (v <=? 0xDFFF))
      then Some v else None
  | [b0; b1; b2; b3] =>
      let v := (b0 - 0xF0) * 262144 + (b1 - 0x80) * 4096
               + (b2 - 0x80) * 64 + (b3 - 0x80) in
      if isContinuation b1 && isContinuation b2 && isContinuation b3
         && (0x10000 <=? v) && (v <=? 0x10FFFF)
      then Some v else None
  | _ => None
  end.

(** One iteration of the loop of Decode at a position holding [c] followed
    by [rest]: the decoded code units and how many units of [rest] the
    iteration consumed. *)
Definition decodeStep (c : N) (rest : jsstring) : result (jsstring * nat) :=
  if c =? 37 then
    match parseHexOctet rest with
    | None => Throw URIError
    | Some b =>
        match leadingOnes b with
        | O => Ok ([b], 2%nat)
        | 1%nat => Throw URIError
        | S (S (S (S (S _)))) => Throw URIError
        | S n' =>
            rbind (readContinuation n' (drop 2 rest)) (λ conts,
              match utf8Decode (b :: conts) with
              | Some v => Ok (utf16EncodeCodePoint v, (2 + 3 * n')%nat)
              | None => Throw URIError
              end)
        end
    end
  else Ok ([c], 0%nat).

(** Decode: [skip] counts the code units the previous iteration consumed
    beyond its first one (the index arithmetic of the loop). *)
Fixpoint decodeFrom (skip : nat) (s : jsstring) : result jsstring :=
  match s with
  | [] => Ok []
  | c :: rest =>
      match skip with
      | S k => decodeFrom k rest
      | O =>
          rbind (decodeStep c rest) (λ '(units, consumed),
            rmap (app units) (decodeFrom consumed rest))
      end
  end.

Definition decodeURIComponent (s : jsstring) : result jsstring :=
  decodeFrom 0 s.

End Uri.

(** ** Types of the collaborators

    [CacheConfig] and [MutationOption] are declared by drizzle-orm; the
    records list the fields the sources read. *)

Module CacheConfig.
(** [ex]: seconds from now; [px]: milliseconds from now; [exat]: Unix time
    in seconds; [pxat]: Unix time in milliseconds; [keepTtl]: retain the
    existing TTL. Every field is optional. *)
Record t := mk {
  ex : option Z;
  px : option Z;
  exat : option Z;
  pxat : option Z;
  keepTtl : option bool
}.
End CacheConfig.

Module MutationOption.
Import Js.
(** A value given alone or as an array. *)
Inductive oneOrMany (A : Type) :=
| One (a : A)
| Many (l : list A).
Arguments One {A} a.
Arguments Many {A} l.

(** A table is named by a drizzle [Table] object or by a string. *)
Inductive tableRef :=
| TableObject (name : jsstring)
| TableName (s : jsstring).

Record t := mk {
  tags : option (oneOrMany jsstring);
  tables : option (oneOrMany tableRef)
}.
End MutationOption.

(** ** utils.ts *)

Module Utils.
Import Js Uri.

Definition isSome {A} (o : option A) : bool :=
  match o with Some _ => true | None => false end.

(** JavaScript truthiness of a string: non-empty. *)
Definition truthy (s : jsstring) : bool :=
  match s with [] => false | _ :: _ => true end.

(** The config itself when it has one of the four TTL fields. *)
Definition pickConfigWithTtl (config : option CacheConfig.t)
  : option CacheConfig.t :=
  match config with
  | None => None
  | Some cfg =>
      if isSome (CacheConfig.ex cfg) || isSome (CacheConfig.px cfg)
         || isSome (CacheConfig.exat cfg) || isSome (CacheConfig.pxat cfg)
      then Some cfg
      else None
  end.

(** [getTableName(table)] or [String(table)] *)
Definition tableName (table : MutationOption.tableRef) : jsstring :=
  match table with
  | MutationOption.TableObject name => name
  | MutationOption.TableName s => s
  end.

(** A falsy argument (absent, or the empty string) gives no table. *)
Definition normalizeTables
  (tables : option (MutationOption.oneOrMany MutationOption.tableRef))
  : list jsstring :=
  match tables with
  | None => []
  | Some (MutationOption.One (MutationOption.TableName [])) => []
  | Some (MutationOption.One table) => [tableName table]
  | Some (MutationOption.Many list) => map tableName list
  end.

(** A falsy argument (absent, or the empty string) gives no tag. *)
Definition normalizeTags (tags : option (MutationOption.oneOrMany jsstring))
  : list jsstring :=
  match tags with
  | None => []
  | Some (MutationOption.One []) => []
  | Some (MutationOption.One tag) => [tag]
  | Some (MutationOption.Many list) => list
  end.

Definition encode (value : jsstring) : result jsstring :=
  encodeURIComponent value.

(** The digest of a table list: the encoded names, sorted, joined by a
    comma; the empty string for no table. *)
Definition makeTablesKey (tables : list jsstring) : result jsstring :=
  match tables with
  | [] => Ok []
  | _ => rmap (λ encoded, join (str ",") (sort encoded)) (mapR encode tables)
  end.

(** The table names of a digest: its non-empty parts, decoded. *)
Definition decodeTablesKey (tablesKey : option jsstring)
  : result (list jsstring) :=
  match tablesKey with
  | None => Ok []
  | Some [] => Ok []
  | Some key => mapR decodeURIComponent (filter (λ p, truthy p = true) (split 44 key))
  end.

Record ParsedIndexKey := mkParsed {
  tableEnc : jsstring;
  tablesKey : jsstring;
  isTag : bool;
  keyEnc : jsstring
}.

(** The parts of an index key, or [None] ([undefined]) for any other
    string. *)
Definition parseIndexKey (key : jsstring) : option ParsedIndexKey :=
  let parts := split 58 key in
  if negb (length parts =? 5)%nat then None
  else if negb (bool_decide (nth 0 parts [] = str "__CTS__")) then None
  else
    match drop 1 parts with
    | [tableEnc; tablesKey; kind; keyEnc] =>
        if negb (truthy tableEnc) || negb (truthy tablesKey)
           || negb (truthy keyEnc) then None
        else if negb (bool_decide (kind = str "q"))
                && negb (bool_decide (kind = str "t")) then None
        else Some (mkParsed tableEnc tablesKey
                            (bool_decide (kind = str "t")) keyEnc)
    | _ => None
    end.

End Utils.

(** ** The storage backend

    The adapter talks to an unstorage [Storage] already wrapped by
    [prefixStorage]; keys below are relative to that prefix. The backend is
    a finite map; it keeps each key as given, lists the keys that start with
    a prefix, and does not expire keys on its own (a TTL option is a hint
    that a driver may ignore). Every call is recorded in a journal, oldest
    first. Backend failures are not modelled. *)

Module CacheEntry.
Import Js.
(** [CacheEntry] of [types.ts]; [V] is the type of the cached payloads
    ([unknown] in the sources). *)
Record t (V : Type) := mk {
  value : V;
  expiresAt : option Z;
  tables : option (list jsstring)
}.
Arguments mk {V} value expiresAt tables.
Arguments value {V} _.
Arguments expiresAt {V} _.
Arguments tables {V} _.
End CacheEntry.

Module Storage.
Import Js.

Section Backend.
Context {V : Type}.

(** [StorageValue]s the adapter writes: an entry at a value key, a number
    at an index key, a string at a tag-map key. *)
Inductive StorageValue :=
| VEntry (entry : CacheEntry.t V)
| VNumber (n : Z)
| VString (s : jsstring).

Inductive call :=
| GetItem (key : jsstring)
| SetItem (key : jsstring) (value : StorageValue) (ttl : option Z)
| RemoveItem (key : jsstring)
| GetKeys (prefix : jsstring).

Record t := mk {
  items : gmap jsstring StorageValue;
  journal : list call
}.

(** Asynchronous code over the backend: a computation reads and updates
    the backend and either returns or rejects. The effects made before a
    rejection stay. *)
Definition M (A : Type) : Type := t → result A * t.

Definition ret {A} (a : A) : M A := λ b, (Ok a, b).

Definition bind {A B} (m : M A) (k : A → M B) : M B :=
  λ b, match m b with
       | (Ok a, b') => k a b'
       | (Throw e, b') => (Throw e, b')
       end.

(** A synchronous computation that may throw. *)
Definition lift {A} (r : result A) : M A := λ b, (r, b).

Definition record (c : call) (b : t) : t :=
  mk (items b) (journal b ++ [c]).

Definition getItem (key : jsstring) : M (option StorageValue) :=
  λ b, (Ok (items b !! key), record (GetItem key) b).

Definition setItem (key : jsstring) (value : StorageValue) (ttl : option Z)
  : M unit :=
  λ b, (Ok (), mk (<[key := value]> (items b))
                  (journal b ++ [SetItem key value ttl])).

Definition removeItem (key : jsstring) : M unit :=
  λ b, (Ok (), mk (delete key (items b)) (journal b ++ [RemoveItem key])).

Definition getKeys (prefix : jsstring) : M (list jsstring) :=
  λ b, (Ok (filter (λ k, startsWith prefix k = true)
                   (map fst (map_to_list (items b)))),
        record (GetKeys prefix) b).

(** [getItem<CacheEntry>(key)] and [getItem<string>(key)]: the type
    argument is the caller's promise about what the key holds; a value of
    another shape reads as absent. *)
Definition getEntry (key : jsstring) : M (option (CacheEntry.t V)) :=
  bind (getItem key) (λ v,
    ret match v with Some (VEntry e) => Some e | _ => None end).

Definition getString (key : jsstring) : M (option jsstring) :=
  bind (getItem key) (λ v,
    ret match v with Some (VString s) => Some s | _ => None end).

(** Run the computations one after the other; the first rejection stops
    the chain ([for] loops with [await], and [list.map] with a callback
    whose synchronous part throws). *)
Fixpoint forEach {A} (f : A → M unit) (l : list A) : M unit :=
  match l with
  | [] => ret ()
  | x :: l' => bind (f x) (λ _, forEach f l')
  end.

(** [Promise.all] over promises that are already running: every branch
    runs to its end, and the result rejects with the first rejection.
    The branches are run in array order, each one to completion. *)
Fixpoint promiseAll (branches : list (M unit)) : M unit :=
  match branches with
  | [] => ret ()
  | m :: ms =>
      λ b, match m b with
           | (Ok _, b') => promiseAll ms b'
           | (Throw e, b') => (Throw e, snd (promiseAll ms b'))
           end
  end.

End Backend.

Arguments StorageValue V : clear implicits.
Arguments call V : clear implicits.
Arguments t V : clear implicits.
Arguments M V A : clear implicits.

End Storage.

(** ** unstorage-cache.ts *)

Module DropParams.
Import Js.
(** The argument of [dropEntry]; an omitted [removeTagMap] is falsy. *)
Record t (V : Type) := mk {
  autoInvalidate : bool;
  isTag : bool;
  keyEnc : jsstring;
  tablesKey : option jsstring;
  entry : option (CacheEntry.t V);
  fallbackTables : option (list jsstring);
  removeTagMap : bool
}.
Arguments mk {V} _ _ _ _ _ _ _.
Arguments autoInvalidate {V} _.
Arguments isTag {V} _.
Arguments keyEnc {V} _.
Arguments tablesKey {V} _.
Arguments entry {V} _.
Arguments fallbackTables {V} _.
Arguments removeTagMap {V} _.
End DropParams.

Module UnstorageCache.
Import Js Uri Utils Storage.

Notation "'let!' x ':=' m 'in' k" := (bind m (λ x, k))
  (at level 10, x name, m at level 100, k at level 200,
   format "'[v' 'let!'  x  ':='  m  'in' '/' k ']'").

Definition DEFAULT_TTL_MS : Z := 1000.
Definition VALUE_AUTO_PREFIX : jsstring := str "__CT__".
Definition VALUE_NON_AUTO_PREFIX : jsstring := str "__NAI__".
Definition INDEX_PREFIX : jsstring := str "__CTS__".
Definition TAG_MAP_PREFIX : jsstring := str "__tagsMap__".

(** The fields of a cache instance besides its storage, which is the
    state the operations run on. Debug logging is left out: it never
    affects control flow or results. *)
Record t := mk {
  useGlobally : bool;
  defaultConfig : option CacheConfig.t
}.

Inductive strategyKind := explicit | all.

Definition strategy (self : t) : strategyKind :=
  if useGlobally self then all else explicit.

(** The storage key of an entry: [__NAI__:kind:key] without
    auto-invalidation, [__CT__:digest:kind:key] with it. *)
Definition valueKey (autoInvalidate isTag : bool) (keyEnc : jsstring)
  (tablesKey : option jsstring) : jsstring :=
  let kind := if isTag then str "t" else str "q" in
  if negb autoInvalidate then
    VALUE_NON_AUTO_PREFIX ++ str ":" ++ kind ++ str ":" ++ keyEnc
  else
    VALUE_AUTO_PREFIX ++ str ":" ++ default [] tablesKey ++ str ":"
      ++ kind ++ str ":" ++ keyEnc.

(** The key of an index record: [__CTS__:table:digest:kind:key]. *)
Definition indexKey (table tablesKey : jsstring) (isTag : bool)
  (keyEnc : jsstring) : result jsstring :=
  rmap (λ tableEnc,
          INDEX_PREFIX ++ str ":" ++ tableEnc ++ str ":" ++ tablesKey
            ++ str ":" ++ (if isTag then str "t" else str "q")
            ++ str ":" ++ keyEnc)
       (encode table).

(** The key of a tag-map record: [__tagsMap__:tag]. *)
Definition tagMapKey (tagEnc : jsstring) : jsstring :=
  TAG_MAP_PREFIX ++ str ":" ++ tagEnc.

(** The [ttl] option for the driver; none for a falsy [ttlSeconds]. *)
Definition ttlOptions (ttlSeconds : option Z) : option Z :=
  match ttlSeconds with
  | Some 0%Z => None
  | other => other
  end.

(** The absolute expiry of a store. The first test is the source's
    [config?.keepTtl && existingExpiresAt && existingExpiresAt > now], with
    the truthiness of a number written out. *)
Definition toExpiresAt (self : t) (now : Z) (config : option CacheConfig.t)
  (existingExpiresAt : option Z) : option Z :=
  let keepTtl :=
    match config with
    | Some cfg => default false (CacheConfig.keepTtl cfg)
    | None => false
    end in
  let reuse :=
    match existingExpiresAt with
    | Some e => keepTtl && negb (e =? 0)%Z && (now <? e)%Z
    | None => false
    end in
  if reuse then existingExpiresAt
  else
    let source :=
      match pickConfigWithTtl config with
      | Some cfg => Some cfg
      | None => pickConfigWithTtl (defaultConfig self)
      end in
    match source with
    | None => Some (now + DEFAULT_TTL_MS)%Z
    | Some source =>
        match CacheConfig.px source with
        | Some px => Some (now + px)%Z
        | None =>
        match CacheConfig.ex source with
        | Some ex => Some (now + ex * 1000)%Z
        | None =>
        match CacheConfig.pxat source with
        | Some pxat => Some pxat
        | None =>
        match CacheConfig.exat source with
        | Some exat => Some (exat * 1000)%Z
        | None => Some (now + DEFAULT_TTL_MS)%Z
        end end end end
    end.

Section WithPayload.
Context {V : Type}.

(** [entry.expiresAt !== undefined && entry.expiresAt <= Date.now()] *)
Definition isExpired (now : Z) (entry : CacheEntry.t V) : bool :=
  match CacheEntry.expiresAt entry with
  | Some expiresAt => (expiresAt <=? now)%Z
  | None => false
  end.

(** With or without the driver's batch method the items are set one by
    one, each with the TTL option. *)
Definition setMany (items : list (jsstring * StorageValue V))
  (ttlSeconds : option Z) : M V unit :=
  forEach (λ item, setItem item.1 item.2 (ttlOptions ttlSeconds)) items.

(** Remove an entry, on request its tag-map record, and the index
    records of its tables. *)
Definition dropEntry (params : DropParams.t V) : M V unit :=
  let autoInvalidate := DropParams.autoInvalidate params in
  let isTag := DropParams.isTag params in
  let keyEnc := DropParams.keyEnc params in
  let tablesKey := DropParams.tablesKey params in
  let! tables :=
    lift match DropParams.entry params ≫= CacheEntry.tables with
         | Some tables => Ok tables
         | None =>
             match DropParams.fallbackTables params with
             | Some tables => Ok tables
             | None =>
                 match tablesKey with
                 | Some (_ :: _) => decodeTablesKey tablesKey
                 | _ => Ok []
                 end
             end
         end in
  let! resolvedTablesKey :=
    lift (if autoInvalidate then
            match tablesKey with
            | Some tablesKey => Ok (Some tablesKey)
            | None => rmap Some (makeTablesKey tables)
            end
          else Ok None) in
  let! _ := removeItem (valueKey autoInvalidate isTag keyEnc
                                 resolvedTablesKey) in
  let! _ := if isTag && DropParams.removeTagMap params
            then removeItem (tagMapKey keyEnc) else ret () in
  match resolvedTablesKey with
  | Some (c :: k) =>
      if negb autoInvalidate || (length tables =? 0)%nat then ret ()
      else
        forEach (λ table,
                   let! key := lift (indexKey table (c :: k) isTag keyEnc) in
                   removeItem key)
                tables
  | _ => ret ()
  end.

(** The lookup; [None] is the [undefined] of a miss. *)
Definition get (self : t) (now : Z) (key : jsstring)
  (tables : list jsstring) (isTag : bool) (isAutoInvalidate : option bool)
  : M V (option V) :=
  let! keyEnc := lift (encode key) in
  if isTag then
    let! mapValue := getString (tagMapKey keyEnc) in
    match mapValue with
    | None | Some [] => ret None
    | Some mapValue =>
        let autoInvalidate := negb (bool_decide (mapValue = str "NAI")) in
        let tablesKey := if autoInvalidate then Some mapValue else None in
        let valueKey := valueKey autoInvalidate true keyEnc tablesKey in
        let! entry := getEntry valueKey in
        match entry with
        | None => ret None
        | Some entry =>
            if isExpired now entry then
              let! fallbackTables :=
                lift match tablesKey with
                     | Some (_ :: _) => decodeTablesKey tablesKey
                     | _ => Ok []
                     end in
              let! _ := dropEntry
                (DropParams.mk autoInvalidate isTag keyEnc tablesKey
                   (Some entry) (Some fallbackTables) true) in
              ret None
            else ret (Some (CacheEntry.value entry))
        end
    end
  else
    let autoInvalidate :=
      default (0 <? length tables)%nat isAutoInvalidate in
    let! tablesKey :=
      lift (if autoInvalidate then rmap Some (makeTablesKey tables)
            else Ok None) in
    let valueKey := valueKey autoInvalidate false keyEnc tablesKey in
    let! entry := getEntry valueKey in
    match entry with
    | None => ret None
    | Some entry =>
        if isExpired now entry then
          let! _ := dropEntry
            (DropParams.mk autoInvalidate false keyEnc tablesKey
               (Some entry) (Some tables) false) in
          ret None
        else ret (Some (CacheEntry.value entry))
    end.

(** [Math.max(1, Math.ceil((expiresAt - now) / 1000))] *)
Definition ttlSecondsOf (now expiresAt : Z) : Z :=
  Z.max 1 (- ((now - expiresAt) / 1000)).

(** The store. *)
Definition put (self : t) (now : Z) (key : jsstring) (response : V)
  (tables : list jsstring) (isTag : bool) (config : option CacheConfig.t)
  : M V unit :=
  let autoInvalidate := (0 <? length tables)%nat in
  let! keyEnc := lift (encode key) in
  let! tablesKey :=
    lift (if autoInvalidate then rmap Some (makeTablesKey tables)
          else Ok None) in
  let valueKey := valueKey autoInvalidate isTag keyEnc tablesKey in
  let keepTtl :=
    match config with
    | Some cfg => bool_decide (CacheConfig.keepTtl cfg = Some true)
    | None => false
    end in
  let! existing := if keepTtl then getEntry valueKey else ret None in
  let expiresAt :=
    toExpiresAt self now config (existing ≫= CacheEntry.expiresAt) in
  if match expiresAt with Some e => (e <=? now)%Z | None => false end then
    dropEntry (DropParams.mk autoInvalidate isTag keyEnc tablesKey
                 None (Some tables) false)
  else
    let ttlSeconds := ttlSecondsOf now <$> expiresAt in
    let entry :=
      CacheEntry.mk response expiresAt
        (if autoInvalidate then Some tables else None) in
    let writes := [(valueKey, VEntry entry)] in
    match (if autoInvalidate then tablesKey else None) with
    | Some (c :: k) =>
        let tablesKey := c :: k in
        let! indexKeys :=
          lift (mapR (λ table, indexKey table tablesKey isTag keyEnc)
                     tables) in
        let writes :=
          writes ++ map (λ indexKey,
                           (indexKey, VNumber (default 1%Z expiresAt)))
                        indexKeys in
        let writes :=
          if isTag then writes ++ [(tagMapKey keyEnc, VString tablesKey)]
          else writes in
        setMany writes ttlSeconds
    | _ =>
        let writes :=
          if isTag then writes ++ [(tagMapKey keyEnc, VString (str "NAI"))]
          else writes in
        setMany writes ttlSeconds
    end.

(** Remove what is stored for a tag: the non-auto slot when the tag map
    has no digest, else the slot under the digest with the index records of
    the tables decoded from it; then the tag-map record. *)
Definition invalidateTag (tag : jsstring) : M V unit :=
  let! keyEnc := lift (encode tag) in
  let! mapValue := getString (tagMapKey keyEnc) in
  let nonAuto :=
    promiseAll [removeItem (valueKey false true keyEnc None);
                removeItem (tagMapKey keyEnc)] in
  match mapValue with
  | None | Some [] => nonAuto
  | Some mapValue =>
      if bool_decide (mapValue = str "NAI") then nonAuto
      else
        let tablesKey := mapValue in
        let! tables := lift (decodeTablesKey (Some tablesKey)) in
        let valueKey := valueKey true true keyEnc (Some tablesKey) in
        let! _ := removeItem valueKey in
        let! _ :=
          forEach (λ table,
                     let! key :=
                       lift (indexKey table tablesKey true keyEnc) in
                     removeItem key)
                  tables in
        removeItem (tagMapKey keyEnc)
  end.

(** One [invalidateTag] per element of the list, all awaited together. *)
Definition invalidateTags (tags : list jsstring) : M V unit :=
  match tags with
  | [] => ret ()
  | _ => promiseAll (map invalidateTag tags)
  end.

(** The first loop of [invalidateTables]: the keys enumerated under the
    prefix of each table, gathered in a [Set]. *)
Fixpoint collectIndexKeys (tables : list jsstring)
  (indexKeys : list jsstring) : M V (list jsstring) :=
  match tables with
  | [] => ret indexKeys
  | table :: rest =>
      let! tableEnc := lift (encode table) in
      let prefix := INDEX_PREFIX ++ str ":" ++ tableEnc ++ str ":" in
      let! keys := getKeys prefix in
      collectIndexKeys rest (foldl setAdd indexKeys keys)
  end.

(** The second loop: the value key of every index key that parses,
    gathered in a [Set]; a key that does not parse is passed over. *)
Fixpoint collectValueKeys (indexKeys : list jsstring)
  (valueKeys : list jsstring) : list jsstring :=
  match indexKeys with
  | [] => valueKeys
  | indexKey :: rest =>
      match parseIndexKey indexKey with
      | None => collectValueKeys rest valueKeys
      | Some parsed =>
          collectValueKeys rest
            (setAdd valueKeys
               (valueKey true (Utils.isTag parsed) (Utils.keyEnc parsed)
                         (Some (Utils.tablesKey parsed))))
      end
  end.

(** The sweep by tables: remove the enumerated index keys and the value
    keys derived from them. *)
Definition invalidateTables (tables : list jsstring) : M V unit :=
  match tables with
  | [] => ret ()
  | _ =>
      let! indexKeys := collectIndexKeys tables [] in
      match indexKeys with
      | [] => ret ()
      | _ =>
          let valueKeys := collectValueKeys indexKeys [] in
          forEach removeItem (indexKeys ++ valueKeys)
      end
  end.

(** The mutation notification: the tags as normalized, the tables
    normalized and passed through a [Set]. *)
Definition onMutate (params : MutationOption.t) : M V unit :=
  let tags := normalizeTags (MutationOption.tags params) in
  let tables :=
    arrayFromSet (normalizeTables (MutationOption.tables params)) in
  promiseAll [invalidateTags tags; invalidateTables tables].

End WithPayload.

End UnstorageCache.

(** ** Notions used to state the properties *)

Module Spec.
Import Js Uri Utils Storage UnstorageCache.

(** A JavaScript string holds 16-bit code units. *)
Definition inRange (s : jsstring) : Prop := Forall (λ c, (c < 0x10000)%N) s.

(** A Unicode scalar value: a code point that is not a surrogate. *)
Definition isScalar (cp : N) : Prop :=
  (cp < 0xD800 ∨ (0xE000 ≤ cp ∧ cp ≤ 0x10FFFF))%N.

(** The first TTL field present in a config, in the priority order
    relative milliseconds, relative seconds, absolute milliseconds,
    absolute seconds, as an absolute expiry. *)
Definition firstTtl (now : Z) (cfg : CacheConfig.t) : option Z :=
  match CacheConfig.px cfg, CacheConfig.ex cfg,
        CacheConfig.pxat cfg, CacheConfig.exat cfg with
  | Some ms, _, _, _ => Some (now + ms)%Z
  | None, Some sec, _, _ => Some (now + sec * 1000)%Z
  | None, None, Some atMs, _ => Some atMs
  | None, None, None, Some atSec => Some (atSec * 1000)%Z
  | None, None, None, None => None
  end.

(** The expiry of section 4.3 when no previous expiry is kept: the
    request config decides if it has a TTL field, else the default config,
    else the fixed default of one second. *)
Definition resolveByPriority (now : Z) (requested defaults : option CacheConfig.t)
  : Z :=
  match requested ≫= firstTtl now with
  | Some expiry => expiry
  | None =>
      match defaults ≫= firstTtl now with
      | Some expiry => expiry
      | None => (now + 1000)%Z
      end
  end.

(** Whether the keep-previous-TTL rule applies: the flag is set and the
    existing expiry is present and in the future. *)
Definition keepTtlApplies (now : Z) (requested : option CacheConfig.t)
  (existingExpiresAt : option Z) : bool :=
  match requested, existingExpiresAt with
  | Some cfg, Some e =>
      bool_decide (CacheConfig.keepTtl cfg = Some true) && (now <? e)%Z
  | _, _ => false
  end.

Section WithPayload.
Context {V : Type}.

(** The items after a series of removals, and after a series of writes. *)
Definition removeAll (keys : list jsstring)
  (items : gmap jsstring (StorageValue V)) : gmap jsstring (StorageValue V) :=
  foldl (λ m k, delete k m) items keys.

Definition setAll (writes : list (jsstring * StorageValue V))
  (items : gmap jsstring (StorageValue V)) : gmap jsstring (StorageValue V) :=
  foldl (λ m w, <[w.1 := w.2]> m) items writes.

(** The digest [put] and [get] derive: [makeTablesKey(tables)] under
    auto-invalidation, [undefined] otherwise. *)
Definition digestIf (autoInvalidate : bool) (tables : list jsstring)
  : result (option jsstring) :=
  if autoInvalidate then rmap Some (makeTablesKey tables) else Ok None.

(** [getItem<CacheEntry>(key)] on the items. *)
Definition entryAt (items : gmap jsstring (StorageValue V)) (key : jsstring)
  : option (CacheEntry.t V) :=
  match items !! key with
  | Some (VEntry entry) => Some entry
  | _ => None
  end.

(** [config?.keepTtl === true] *)
Definition keepTtlRequested (config : option CacheConfig.t) : bool :=
  match config with
  | Some cfg => bool_decide (CacheConfig.keepTtl cfg = Some true)
  | None => false
  end.

(** The expiry [put] resolves for the slot [valueKey]: the existing entry
    is read only when [keepTtl] is requested. *)
Definition putExpiry (self : UnstorageCache.t) (now : Z)
  (config : option CacheConfig.t)
  (items : gmap jsstring (StorageValue V)) (valueKey : jsstring) : option Z :=
  toExpiresAt self now config
    ((if keepTtlRequested config then entryAt items valueKey else None)
       ≫= CacheEntry.expiresAt).

(** [getItem<string>(key)] on the items. *)
Definition stringAt (items : gmap jsstring (StorageValue V)) (key : jsstring)
  : option jsstring :=
  match items !! key with
  | Some (VString s) => Some s
  | _ => None
  end.

(** What a lookup finds: the auto-invalidation flag, the digest and the
    encoded key it derives, and the entry stored in the slot they name.
    A tag lookup takes flag and digest from the tag-map record, a query
    lookup from the hint and the tables. *)
Definition found (items : gmap jsstring (StorageValue V)) (key : jsstring)
  (tables : list jsstring) (isTag : bool) (isAutoInvalidate : option bool)
  : result (option (bool * option jsstring * jsstring * CacheEntry.t V)) :=
  rbind (encode key) (λ keyEnc,
    if isTag then
      match stringAt items (tagMapKey keyEnc) with
      | None | Some [] => Ok None
      | Some mapValue =>
          let auto := negb (bool_decide (mapValue = str "NAI")) in
          let tablesKey := if auto then Some mapValue else None in
          Ok (entry ← entryAt items (valueKey auto true keyEnc tablesKey);
              Some (auto, tablesKey, keyEnc, entry))
      end
    else
      let auto := default (0 <? length tables)%nat isAutoInvalidate in
      rbind (digestIf auto tables) (λ tablesKey,
        Ok (entry ← entryAt items (valueKey auto false keyEnc tablesKey);
            Some (auto, tablesKey, keyEnc, entry)))).

(** The keys [dropEntry] removes when the caller passes the fallback
    tables and, for an auto-invalidated entry, the digest: the value key,
    the tag-map key on request, and the index keys [indexKeys] of the
    entry's tables when the digest is not empty. *)
Definition droppedKeys (params : DropParams.t V) (indexKeys : list jsstring)
  : list jsstring :=
  let auto := DropParams.autoInvalidate params in
  valueKey auto (DropParams.isTag params) (DropParams.keyEnc params)
           (if auto then DropParams.tablesKey params else None)
  :: (if DropParams.isTag params && DropParams.removeTagMap params
      then [tagMapKey (DropParams.keyEnc params)] else [])
  ++ (if auto && truthy (default [] (DropParams.tablesKey params))
      then indexKeys else []).

End WithPayload.
End Spec.

(** ** Scenarios of the test suite, with integers as payloads *)

Module Scenario.
Import Js Uri Utils Storage UnstorageCache.

(** [unstorageCache({ storage, config: { ex: 60 } })] on an empty store *)
Definition ex60 : option CacheConfig.t :=
  Some (CacheConfig.mk (Some 60%Z) None None None None).
Definition cache : UnstorageCache.t := UnstorageCache.mk false ex60.
Definition empty : Storage.t Z := Storage.mk ∅ [].

Definition users : jsstring := str "users".
Definition posts : jsstring := str "posts".

(** The backend after a computation. *)
Definition after {A} (m : M Z A) (b : Storage.t Z) : Storage.t Z := (m b).2.

(** [put("k1", 1, ["users", "posts"], false, { ex: 60 })] at time 1000 *)
Definition stored : Storage.t Z :=
  after (put cache 1000 (str "k1") 1%Z [users; posts] false ex60) empty.

(** then [onMutate({ tables: ["users"] })] *)
Definition mutated : Storage.t Z :=
  after (onMutate (MutationOption.mk None
           (Some (MutationOption.Many [MutationOption.TableName users]))))
        stored.

(** [onMutate({ tags: ["a", "a"], tables: ["users", "users"] })] on the
    empty store *)
Definition repeated : Storage.t Z :=
  after (onMutate (MutationOption.mk
           (Some (MutationOption.Many [str "a"; str "a"]))
           (Some (MutationOption.Many [MutationOption.TableName users;
                                       MutationOption.TableName users]))))
        empty.

(** [put("tagged", 1, ["users"], true, { px: 50 })] at time 1000 *)
Definition px50 : option CacheConfig.t :=
  Some (CacheConfig.mk None (Some 50%Z) None None None).
Definition tagged : Storage.t Z :=
  after (put cache 1000 (str "tagged") 1%Z [users] true px50) empty.

(** the same store once the tag-map record of the tag is gone *)
Definition orphaned : Storage.t Z :=
  after (removeItem (tagMapKey (str "tagged"))) tagged.

End Scenario.

(** ** Further notions used to state properties *)

Module SpecMore.
Import Js Uri Utils Storage UnstorageCache Spec.

(** A string without the code unit [sep]. *)
Definition noSep (sep : N) (s : jsstring) : Prop := Forall (λ c, c ≠ sep) s.

(** The kind tag of a key. *)
Definition kindOf (isTag : bool) : jsstring :=
  if isTag then str "t" else str "q".

(** The index key of an encoded table name, a digest, a kind and an
    encoded fingerprint: what [indexKey] builds once the table name is
    encoded. *)
Definition indexKeyOf (tableEnc tablesKey : jsstring) (isTag : bool)
  (keyEnc : jsstring) : jsstring :=
  INDEX_PREFIX ++ str ":" ++ tableEnc ++ str ":" ++ tablesKey
    ++ str ":" ++ kindOf isTag ++ str ":" ++ keyEnc.

(** The prefix under which [invalidateTables] enumerates the index keys
    of a table. *)
Definition tablePrefix (tableEnc : jsstring) : jsstring :=
  INDEX_PREFIX ++ str ":" ++ tableEnc ++ str ":".

Section WithPayload.
Context {V : Type}.

(** The records a store that is alive writes, in order: the entry in
    its slot, one number per index key and, for a tag, the tag-map record,
    which holds the digest or, for an empty digest, ["NAI"]. *)
Definition putWrites (valueKey keyEnc : jsstring) (isTag : bool)
  (entry : CacheEntry.t V) (expiry : Z) (digest : jsstring)
  (indexKeys : list jsstring) : list (jsstring * StorageValue V) :=
  (valueKey, VEntry entry)
  :: map (λ indexKey, (indexKey, VNumber expiry)) indexKeys
  ++ (if isTag
      then [(tagMapKey keyEnc,
             VString (if truthy digest then digest else str "NAI"))]
      else []).

(** A computation that only removes: every item it leaves was there
    before, unchanged. *)
Definition removesOnly {A} (m : M V A) : Prop :=
  ∀ b k v, items (m b).2 !! k = Some v → items b !! k = Some v.

End WithPayload.
End SpecMore.

(** ** Further scenarios *)

Module ScenarioMore.
Import Js Uri Utils Storage UnstorageCache Scenario.

Definition comments : jsstring := str "comments".

(** A string that is one unpaired lead surrogate. *)
Definition lone : jsstring := [0xD800%N].

(** [onMutate({ tables: ["users"] })] and [onMutate({ tags: "tagged" })] *)
Definition sweepUsers : MutationOption.t :=
  MutationOption.mk None
    (Some (MutationOption.Many [MutationOption.TableName users])).
Definition notifyTagged : MutationOption.t :=
  MutationOption.mk (Some (MutationOption.One (str "tagged"))) None.

End ScenarioMore.

(** * Properties *)

(** ** The URI built-ins *)

Module UriFacts.
Import Js Uri Spec.
Local Open Scope N_scope.

(** [lia] is to reason about division and remainder by a constant. *)
Ltac Zify.zify_post_hook ::= Z.to_euclidean_division_equations.

Lemma hexValue_hexDigit d : d < 16 → hexValue (hexDigit d) = Some d.
Proof.
  intros Hd. unfold hexDigit, hexValue.
  destruct (N.ltb_spec d 10).
  - replace ((48 <=? 48 + d) && (48 + d <=? 57)) with true
      by (symmetry; apply andb_true_iff; split; apply N.leb_le; lia).
    f_equal. lia.
  - replace ((48 <=? 55 + d) && (55 + d <=? 57)) with false
      by (symmetry; apply andb_false_iff; right; apply N.leb_gt; lia).
    replace ((65 <=? 55 + d) && (55 + d <=? 70)) with true
      by (symmetry; apply andb_true_iff; split; apply N.leb_le; lia).
    f_equal. lia.
Qed.

Lemma parseHexOctet_pct b s :
  b < 256 →
  parseHexOctet (hexDigit (b / 16) :: hexDigit (b mod 16) :: s) = Some b.
Proof.
  intros Hb. unfold parseHexOctet.
  rewrite !hexValue_hexDigit by lia.
  f_equal. lia.
Qed.

Lemma decodeFrom_skip p e : decodeFrom (length p) (p ++ e) = decodeFrom 0 e.
Proof. induction p as [|c p IH]; [reflexivity | exact IH]. Qed.

Lemma decodeFrom_0_cons c rest :
  decodeFrom 0 (c :: rest) =
  rbind (decodeStep c rest) (λ '(units, consumed),
    rmap (app units) (decodeFrom consumed rest)).
Proof. reflexivity. Qed.

Lemma decodeFrom_literal c e :
  c ≠ 37 → decodeFrom 0 (c :: e) = rmap (cons c) (decodeFrom 0 e).
Proof.
  intros Hc. rewrite decodeFrom_0_cons. unfold decodeStep.
  apply N.eqb_neq in Hc. rewrite Hc. reflexivity.
Qed.

Lemma decodeStep_pct b e :
  b < 256 →
  decodeStep 37 (hexDigit (b / 16) :: hexDigit (b mod 16) :: e) =
  match leadingOnes b with
  | O => Ok ([b], 2%nat)
  | 1%nat => Throw URIError
  | S (S (S (S (S _)))) => Throw URIError
  | S n' =>
      rbind (readContinuation n' e) (λ conts,
        match utf8Decode (b :: conts) with
        | Some v => Ok (utf16EncodeCodePoint v, (2 + 3 * n')%nat)
        | None => Throw URIError
        end)
  end.
Proof.
  intros Hb. unfold decodeStep.
  rewrite N.eqb_refl, parseHexOctet_pct by done. reflexivity.
Qed.

Lemma readContinuation_pct bs e :
  Forall (λ b, b < 256) bs →
  readContinuation (length bs) (flat_map pctEncode bs ++ e) = Ok bs.
Proof.
  induction 1 as [|b bs Hb _ IH]; [reflexivity|].
  cbn [length flat_map readContinuation pctEncode app].
  rewrite N.eqb_refl, parseHexOctet_pct by done.
  cbn [skipn]. rewrite drop_0, IH. reflexivity.
Qed.

Lemma length_pcts bs : length (flat_map pctEncode bs) = (3 * length bs)%nat.
Proof. induction bs as [|b bs IH]; cbn [flat_map length pctEncode app]; lia. Qed.

(** An escaped octet below 0x80 decodes to the code unit of that value. *)
Lemma decodeFrom_pct_ascii b e :
  b < 0x80 →
  decodeFrom 0 (pctEncode b ++ e) = rmap (cons b) (decodeFrom 0 e).
Proof.
  intros Hb. unfold pctEncode. cbn [app].
  rewrite decodeFrom_0_cons, decodeStep_pct by lia.
  unfold leadingOnes. destruct (N.ltb_spec b 0x80); [|lia].
  cbn [rbind]. reflexivity.
Qed.

(** A valid escaped sequence of two to four octets decodes to the UTF-16
    form of its code point. *)
Lemma decodeFrom_pct_multi b conts v e :
  b < 256 → Forall (λ b, b < 256) conts →
  leadingOnes b = S (length conts) →
  (1 ≤ length conts ≤ 3)%nat →
  utf8Decode (b :: conts) = Some v →
  decodeFrom 0 (flat_map pctEncode (b :: conts) ++ e) =
  rmap (app (utf16EncodeCodePoint v)) (decodeFrom 0 e).
Proof.
  intros Hb Hconts Hn Hlen Hv.
  cbn [flat_map]. unfold pctEncode at 1. cbn [app].
  rewrite decodeFrom_0_cons, decodeStep_pct by done. rewrite Hn.
  assert (Hrd : readContinuation (length conts)
                  (flat_map pctEncode conts ++ e) = Ok conts)
    by (by apply readContinuation_pct).
  assert (Hskip : decodeFrom (2 + 3 * length conts)
            (hexDigit (b / 16) :: hexDigit (b mod 16)
               :: flat_map pctEncode conts ++ e) = decodeFrom 0 e).
  { change (decodeFrom (3 * length conts)
              (flat_map pctEncode conts ++ e) = decodeFrom 0 e).
    rewrite <- length_pcts. apply decodeFrom_skip. }
  destruct (length conts) as [|[|[|[|n]]]] eqn:Hl; try lia;
    rewrite Hrd; cbn [rbind]; rewrite Hv; cbn [rbind];
    rewrite Hskip; reflexivity.
Qed.

Lemma utf8Encode_octets cp :
  cp ≤ 0x10FFFF → Forall (λ b, b < 256) (utf8Encode cp).
Proof.
  intros Hcp. unfold utf8Encode.
  repeat case_match; repeat constructor;
    repeat match goal with H : (_ <? _) = _ |- _ =>
      first [apply N.ltb_lt in H | apply N.ltb_ge in H] end; lia.
Qed.

Lemma N_leb_true a b : a ≤ b → (a <=? b) = true.
Proof. apply N.leb_le. Qed.
Lemma N_leb_false a b : b < a → (a <=? b) = false.
Proof. apply N.leb_gt. Qed.
Lemma N_ltb_true a b : a < b → (a <? b) = true.
Proof. apply N.ltb_lt. Qed.
Lemma N_ltb_false a b : b ≤ a → (a <? b) = false.
Proof. apply N.ltb_ge. Qed.

Lemma isContinuation_low6 x : isContinuation (0x80 + x mod 64) = true.
Proof. unfold isContinuation. rewrite !N_leb_true by lia. reflexivity. Qed.

(** Escaping the octets of a scalar value and decoding gives its UTF-16
    form back. *)
Lemma decodeFrom_utf8 cp e :
  isScalar cp →
  decodeFrom 0 (flat_map pctEncode (utf8Encode cp) ++ e) =
  rmap (app (utf16EncodeCodePoint cp)) (decodeFrom 0 e).
Proof.
  intros Hcp.
  assert (Hle : cp ≤ 0x10FFFF) by (unfold isScalar in Hcp; lia).
  pose proof (utf8Encode_octets cp Hle) as Hoct.
  unfold utf8Encode in *.
  destruct (N.ltb_spec cp 0x80).
  { cbn [flat_map]. rewrite app_nil_r, decodeFrom_pct_ascii by done.
    unfold utf16EncodeCodePoint. rewrite N_leb_true by lia. reflexivity. }
  destruct (N.ltb_spec cp 0x800).
  { inversion Hoct as [|? ? Hb0 Hrest]; subst.
    apply decodeFrom_pct_multi; [done | done | | cbn; lia |].
    - unfold leadingOnes.
      rewrite !N_ltb_false, N_ltb_true by lia. reflexivity.
    - unfold utf8Decode. rewrite isContinuation_low6.
      rewrite N_leb_true by lia. cbn [andb]. f_equal. lia. }
  destruct (N.ltb_spec cp 0x10000).
  { inversion Hoct as [|? ? Hb0 Hrest]; subst.
    apply decodeFrom_pct_multi; [done | done | | cbn; lia |].
    - unfold leadingOnes.
      rewrite !N_ltb_false, N_ltb_true by lia. reflexivity.
    - unfold utf8Decode. rewrite !isContinuation_low6. cbn [andb].
      replace ((224 + cp / 4096 - 224) * 4096 +
               (128 + (cp / 64) mod 64 - 128) * 64 +
               (128 + cp mod 64 - 128)) with cp by lia.
      rewrite (N_leb_true 0x800 cp) by lia. cbn [andb].
      destruct Hcp as [Hlo | [Hhi _]].
      + rewrite (N_leb_false 0xD800 cp) by lia. reflexivity.
      + rewrite (N_leb_false cp 0xDFFF) by lia.
        rewrite andb_false_r. reflexivity. }
  inversion Hoct as [|? ? Hb0 Hrest]; subst.
  apply decodeFrom_pct_multi; [done | done | | cbn; lia |].
  - unfold leadingOnes.
    rewrite !N_ltb_false, N_ltb_true by lia. reflexivity.
  - unfold utf8Decode. rewrite !isContinuation_low6. cbn [andb].
    replace ((240 + cp / 262144 - 240) * 262144 +
             (128 + (cp / 4096) mod 64 - 128) * 4096 +
             (128 + (cp / 64) mod 64 - 128) * 64 +
             (128 + cp mod 64 - 128)) with cp by lia.
    rewrite !N_leb_true by lia. reflexivity.
Qed.

Lemma encodeURIComponent_cons c rest :
  encodeURIComponent (c :: rest) =
  if isUnescaped c then rmap (cons c) (encodeURIComponent rest)
  else if isTrailSurrogate c then Throw URIError
  else if isLeadSurrogate c then
    match rest with
    | d :: rest' =>
        if isTrailSurrogate d then
          rmap (app (flat_map pctEncode
                       (utf8Encode (surrogatePairToCodePoint c d))))
               (encodeURIComponent rest')
        else Throw URIError
    | [] => Throw URIError
    end
  else rmap (app (flat_map pctEncode (utf8Encode c)))
            (encodeURIComponent rest).
Proof. reflexivity. Qed.

Lemma isUnescaped_not_percent c : isUnescaped c = true → c ≠ 37.
Proof. intros H ->. discriminate H. Qed.

Lemma surrogate_range (b : bool) lo hi c :
  ((lo <=? c) && (c <=? hi)) = b →
  if b then lo ≤ c ∧ c ≤ hi else c < lo ∨ hi < c.
Proof.
  intros <-. destruct (N.leb_spec lo c), (N.leb_spec c hi); cbn; lia.
Qed.

Lemma surrogatePair_scalar c d :
  isLeadSurrogate c = true → isTrailSurrogate d = true →
  isScalar (surrogatePairToCodePoint c d) ∧
  utf16EncodeCodePoint (surrogatePairToCodePoint c d) = [c; d].
Proof.
  intros Hc%surrogate_range Hd%surrogate_range.
  unfold isScalar, surrogatePairToCodePoint, utf16EncodeCodePoint.
  split; [lia|].
  rewrite N_leb_false by lia. f_equal; [lia | f_equal; lia].
Qed.

Lemma unit_scalar c :
  isLeadSurrogate c = false → isTrailSurrogate c = false → c < 0x10000 →
  isScalar c ∧ utf16EncodeCodePoint c = [c].
Proof.
  intros Hl%surrogate_range Ht%surrogate_range Hc.
  unfold isScalar, utf16EncodeCodePoint.
  split; [lia|]. rewrite N_leb_true by lia. reflexivity.
Qed.

Lemma isUnescaped_ascii c : isUnescaped c = true → c < 0x80.
Proof.
  intros Hu. destruct (N.lt_ge_cases c 0x80) as [|Hge]; [done|].
  exfalso. revert Hu. unfold isUnescaped.
  rewrite (N_leb_false c 90), (N_leb_false c 122), (N_leb_false c 57) by lia.
  rewrite !andb_false_r. cbn [orb existsb].
  repeat match goal with
  | |- context [N.eqb c ?k] => rewrite (proj2 (N.eqb_neq c k)) by lia
  end. done.
Qed.

Lemma isUnescaped_not_surrogate c :
  isUnescaped c = true →
  isLeadSurrogate c = false ∧ isTrailSurrogate c = false.
Proof.
  intros Hc%isUnescaped_ascii. unfold isLeadSurrogate, isTrailSurrogate.
  by rewrite !(N_leb_false _ c) by lia.
Qed.

(** Encoding a well-formed string succeeds, and the result decodes to the
    string. The induction goes over the string and over the string with
    one more unit in front, as a surrogate pair takes two units. *)
Lemma encode_decode_aux s :
  (isWellFormed s = true →
   ∃ e, encodeURIComponent s = Ok e ∧ decodeFrom 0 e = Ok s) ∧
  (∀ c, isWellFormed (c :: s) = true →
   ∃ e, encodeURIComponent (c :: s) = Ok e ∧ decodeFrom 0 e = Ok (c :: s)).
Proof.
  induction s as [|d s [IH0 IH1]].
  - split; [intros _; by exists [] |].
    intros c Hwf. rewrite encodeURIComponent_cons.
    cbn [isWellFormed] in Hwf.
    destruct (isUnescaped c) eqn:Hu.
    { exists [c]. split; [reflexivity|].
      rewrite decodeFrom_literal by by apply isUnescaped_not_percent.
      reflexivity. }
    destruct (isTrailSurrogate c) eqn:Ht; [done|].
    destruct (isLeadSurrogate c) eqn:Hl; [done|].
    apply andb_true_iff in Hwf as [Hc%N.ltb_lt _].
    destruct (unit_scalar c Hl Ht Hc) as [Hsc Hu16].
    eexists. split; [reflexivity|].
    rewrite decodeFrom_utf8, Hu16 by done. reflexivity.
  - split; [apply IH1|].
    intros c Hwf. rewrite encodeURIComponent_cons.
    cbn [isWellFormed] in Hwf.
    destruct (isUnescaped c) eqn:Hu.
    { destruct (isUnescaped_not_surrogate c Hu) as [Hl Ht].
      rewrite Hl, Ht in Hwf. apply andb_true_iff in Hwf as [_ Hwf].
      destruct (IH1 d Hwf) as (e & -> & He).
      exists (c :: e). split; [reflexivity|].
      rewrite decodeFrom_literal by by apply isUnescaped_not_percent.
      rewrite He. reflexivity. }
    destruct (isTrailSurrogate c) eqn:Ht; [done|].
    destruct (isLeadSurrogate c) eqn:Hl.
    + apply andb_true_iff in Hwf as [Hd Hwf]. rewrite Hd.
      destruct (IH0 Hwf) as (e & -> & He).
      destruct (surrogatePair_scalar c d Hl Hd) as [Hsc Hu16].
      eexists. split; [reflexivity|].
      rewrite decodeFrom_utf8, Hu16, He by done. reflexivity.
    + apply andb_true_iff in Hwf as [Hc%N.ltb_lt Hwf].
      destruct (IH1 d Hwf) as (e & -> & He).
      destruct (unit_scalar c Hl Ht Hc) as [Hsc Hu16].
      eexists. split; [reflexivity|].
      rewrite decodeFrom_utf8, Hu16, He by done. reflexivity.
Qed.

Lemma encode_decode s :
  isWellFormed s = true →
  ∃ e, encodeURIComponent s = Ok e ∧ decodeURIComponent e = Ok s.
Proof. apply encode_decode_aux. Qed.

(** A string of 16-bit units with an unpaired surrogate is not encoded at
    all. *)
Lemma encode_ill_formed s :
  inRange s → isWellFormed s = false → encodeURIComponent s = Throw URIError.
Proof.
  intros Hs. cut ((isWellFormed s = false →
                   encodeURIComponent s = Throw URIError) ∧
                  ∀ c, c < 0x10000 → isWellFormed (c :: s) = false →
                       encodeURIComponent (c :: s) = Throw URIError).
  { intros [H _]. exact H. }
  induction Hs as [|d s Hd Hs [IH0 IH1]].
  - split; [done|]. intros c Hc%N.ltb_lt Hwf.
    rewrite encodeURIComponent_cons. cbn [isWellFormed] in Hwf.
    rewrite Hc in Hwf.
    destruct (isUnescaped c) eqn:Hu.
    { destruct (isUnescaped_not_surrogate c Hu) as [Hl Ht].
      by rewrite Hl, Ht in Hwf. }
    destruct (isTrailSurrogate c); [done|].
    by destruct (isLeadSurrogate c).
  - split; [by apply IH1|]. intros c Hc%N.ltb_lt Hwf.
    rewrite encodeURIComponent_cons. cbn [isWellFormed] in Hwf.
    rewrite Hc in Hwf.
    destruct (isUnescaped c) eqn:Hu.
    { destruct (isUnescaped_not_surrogate c Hu) as [Hl Ht].
      rewrite Hl, Ht in Hwf. cbn [andb] in Hwf.
      by rewrite (IH1 d Hd Hwf). }
    destruct (isTrailSurrogate c); [done|].
    destruct (isLeadSurrogate c).
    + destruct (isTrailSurrogate d); [|done].
      cbn [andb] in Hwf. by rewrite (IH0 Hwf).
    + cbn [andb] in Hwf. by rewrite (IH1 d Hd Hwf).
Qed.

(** For a string of 16-bit units, [encodeURIComponent] succeeds exactly on
    the well-formed ones, and its result decodes to the string. *)
Lemma encode_Ok_decode s e :
  inRange s → encodeURIComponent s = Ok e → decodeURIComponent e = Ok s.
Proof.
  intros Hs He. destruct (isWellFormed s) eqn:Hwf.
  - destruct (encode_decode s Hwf) as (e' & He' & Hd). congruence.
  - rewrite encode_ill_formed in He by done. done.
Qed.

Lemma hexDigit_not_separator d : hexDigit d ≠ 44 ∧ hexDigit d ≠ 58.
Proof. unfold hexDigit. destruct (N.ltb_spec d 10); lia. Qed.

Lemma pctEncode_no_separator octets :
  Forall (λ c, c ≠ 44 ∧ c ≠ 58) (flat_map pctEncode octets).
Proof.
  induction octets as [|b octets IH]; [constructor|].
  cbn [flat_map pctEncode app].
  repeat constructor; try done; apply hexDigit_not_separator.
Qed.

(** An encoded string has no comma and no colon, the separators of
    digests and keys. *)
Lemma encode_no_separator s :
  (∀ e, encodeURIComponent s = Ok e → Forall (λ c, c ≠ 44 ∧ c ≠ 58) e) ∧
  (∀ c e, encodeURIComponent (c :: s) = Ok e →
          Forall (λ c, c ≠ 44 ∧ c ≠ 58) e).
Proof.
  induction s as [|d s [IH0 IH1]].
  - split; [by intros e [= <-]|].
    intros c e. rewrite encodeURIComponent_cons.
    destruct (isUnescaped c) eqn:Hu.
    { intros [= <-]. constructor; [|done].
      split; intros ->; discriminate Hu. }
    destruct (isTrailSurrogate c); [done|].
    destruct (isLeadSurrogate c); [done|].
    intros [= <-]. rewrite app_nil_r. apply pctEncode_no_separator.
  - split; [apply IH1|].
    intros c e. rewrite encodeURIComponent_cons.
    destruct (isUnescaped c) eqn:Hu.
    { destruct (encodeURIComponent (d :: s)) as [e'|] eqn:He'; [|done].
      intros [= <-]. constructor; [|by apply (IH1 d)].
      split; intros ->; discriminate Hu. }
    destruct (isTrailSurrogate c); [done|].
    destruct (isLeadSurrogate c).
    + destruct (isTrailSurrogate d); [|done].
      destruct (encodeURIComponent s) as [e'|] eqn:He'; [|done].
      intros [= <-]. apply Forall_app.
      split; [apply pctEncode_no_separator | by apply IH0].
    + destruct (encodeURIComponent (d :: s)) as [e'|] eqn:He'; [|done].
      intros [= <-]. apply Forall_app.
      split; [apply pctEncode_no_separator | by apply (IH1 d)].
Qed.



End UriFacts.

(** ** Computations that may throw *)

Module ResultFacts.
Import Js.

Lemma mapR_rmap {A B C} (f : A → result B) (g : B → C) l :
  mapR (λ x, rmap g (f x)) l = rmap (map g) (mapR f l).
Proof.
  induction l as [|x l IH]; [done|].
  cbn [mapR]. rewrite IH.
  destruct (f x) as [y|e]; [|done]. cbn.
  destruct (mapR f l); done.
Qed.

Lemma mapR_Ok_length {A B} (f : A → result B) l l' :
  mapR f l = Ok l' → length l' = length l.
Proof.
  revert l'. induction l as [|x l IH]; intros l'; cbn.
  - by intros [= <-].
  - destruct (f x); [|done]. cbn.
    destruct (mapR f l) as [ys|]; [|done]. cbn.
    intros [= <-]. cbn. f_equal. by apply IH.
Qed.

Lemma mapR_Ok_elem {A B} (f : A → result B) l l' x :
  mapR f l = Ok l' → x ∈ l → ∃ y, f x = Ok y ∧ y ∈ l'.
Proof.
  revert l'. induction l as [|x' l IH]; intros l' Hl Hin.
  - by apply elem_of_nil in Hin.
  - cbn in Hl. destruct (f x') as [y'|] eqn:Hx'; [|done]. cbn in Hl.
    destruct (mapR f l) as [ys|]; [|done]. cbn in Hl.
    injection Hl as <-.
    apply elem_of_cons in Hin as [->|Hin].
    + exists y'. split; [done | left].
    + destruct (IH ys eq_refl Hin) as (y & ? & ?).
      exists y. split; [done | by right].
Qed.

Lemma mapR_Ok_elem_inv {A B} (f : A → result B) l l' y :
  mapR f l = Ok l' → y ∈ l' → ∃ x, x ∈ l ∧ f x = Ok y.
Proof.
  revert l'. induction l as [|x' l IH]; intros l' Hl Hin; cbn in Hl.
  - injection Hl as <-. by apply elem_of_nil in Hin.
  - destruct (f x') as [y'|] eqn:Hx'; [|done]. cbn in Hl.
    destruct (mapR f l) as [ys|]; [|done]. cbn in Hl.
    injection Hl as <-.
    apply elem_of_cons in Hin as [->|Hin].
    + exists x'. split; [left | done].
    + destruct (IH ys eq_refl Hin) as (x & ? & ?).
      exists x. split; [by right | done].
Qed.

End ResultFacts.

(** ** Sorting and the digest of a table list *)

Module DigestFacts.
Import Js Uri Utils Spec UriFacts ResultFacts.

Lemma leb_total a b : leb a b = true ∨ leb b a = true.
Proof.
  revert b. induction a as [|x a IH]; intros [|y b]; cbn; auto.
  destruct (N.ltb_spec x y); [by left|].
  destruct (N.ltb_spec y x); [by right|].
  assert (x = y) as -> by lia. rewrite N.eqb_refl. cbn. apply IH.
Qed.

Lemma leb_trans a b c : leb a b = true → leb b c = true → leb a c = true.
Proof.
  revert b c. induction a as [|x a IH]; intros [|y b] [|z c]; cbn; try done.
  intros Hab Hbc.
  apply orb_true_iff in Hab as [Hxy%N.ltb_lt | [->%N.eqb_eq Hab]%andb_true_iff];
    apply orb_true_iff in Hbc
      as [Hyz%N.ltb_lt | [->%N.eqb_eq Hbc]%andb_true_iff];
    apply orb_true_iff.
  - left. apply N.ltb_lt. lia.
  - left. by apply N.ltb_lt.
  - left. by apply N.ltb_lt.
  - right. rewrite N.eqb_refl. cbn. by eapply IH.
Qed.

Lemma leb_antisym a b : leb a b = true → leb b a = true → a = b.
Proof.
  revert b. induction a as [|x a IH]; intros [|y b]; cbn; try done.
  intros Hab Hba.
  apply orb_true_iff in Hab as [Hxy%N.ltb_lt | [->%N.eqb_eq Hab]%andb_true_iff];
    apply orb_true_iff in Hba
      as [Hyx%N.ltb_lt | [Heq%N.eqb_eq Hba]%andb_true_iff]; try lia.
  f_equal. by apply IH.
Qed.

#[export] Instance le_total : Total le.
Proof. intros a b. apply leb_total. Qed.

#[export] Instance le_trans : Transitive le.
Proof. intros a b c. apply leb_trans. Qed.

#[export] Instance le_antisym : AntiSymm (=) le.
Proof. intros a b. apply leb_antisym. Qed.

(** Sorting does not depend on the order of the input. *)
Lemma sort_Permutation l1 l2 : l1 ≡ₚ l2 → sort l1 = sort l2.
Proof.
  intros Hperm. unfold sort.
  apply (Sorted_unique le); [apply Sorted_merge_sort, _ ..|].
  by rewrite !merge_sort_Permutation.
Qed.

Lemma mapR_Permutation {A B} (f : A → result B) l1 l2 :
  l1 ≡ₚ l2 →
  (mapR f l1 = Throw URIError ∧ mapR f l2 = Throw URIError) ∨
  (∃ r1 r2, mapR f l1 = Ok r1 ∧ mapR f l2 = Ok r2 ∧ r1 ≡ₚ r2).
Proof.
  induction 1 as [|x l1 l2 _ IH|x y l|l1 l2 l3 _ IH12 _ IH23].
  - right. by exists [], [].
  - cbn. destruct (f x) as [fx|[]]; cbn; [|by left].
    destruct IH as [[-> ->]|(r1 & r2 & -> & -> & Hr)]; cbn; [by left|].
    right. exists (fx :: r1), (fx :: r2).
    split; [done|]. split; [done|]. by apply perm_skip.
  - cbn. destruct (f x) as [fx|[]], (f y) as [fy|[]]; cbn;
      destruct (mapR f l) as [r|[]]; cbn; auto.
    right. exists (fy :: fx :: r), (fx :: fy :: r).
    split; [done|]. split; [done|]. apply perm_swap.
  - destruct IH12 as [[-> H2]|(r1 & r2 & -> & H2 & Hr12)];
      destruct IH23 as [[H2' ->]|(r2' & r3 & H2' & -> & Hr23)];
      rewrite H2 in H2'; try done; [by left|].
    injection H2' as <-. right. exists r1, r3.
    split; [done|]. split; [done|]. by etrans.
Qed.

(** The digest of a table list does not depend on its order. *)
Lemma makeTablesKey_Permutation tables1 tables2 :
  tables1 ≡ₚ tables2 → makeTablesKey tables1 = makeTablesKey tables2.
Proof.
  intros Hperm. unfold makeTablesKey.
  destruct tables1 as [|t1 ts1].
  { apply Permutation_nil_l in Hperm. by subst. }
  destruct tables2 as [|t2 ts2].
  { by apply Permutation_nil_r in Hperm. }
  destruct (mapR_Permutation encode _ _ Hperm)
    as [[-> ->]|(r1 & r2 & -> & -> & Hr)]; [done|].
  cbn. by rewrite (sort_Permutation r1 r2).
Qed.


Lemma split_not_nil sep s : split sep s ≠ [].
Proof.
  destruct s as [|c s]; cbn [split]; [done|].
  destruct (c =? sep)%N; [done|]. by destruct (split sep s).
Qed.

Lemma split_app_no_separator sep p rest :
  Forall (λ c, c ≠ sep) p →
  split sep (p ++ rest) =
  match split sep rest with
  | q :: qs => (p ++ q) :: qs
  | [] => [p]
  end.
Proof.
  pose proof (split_not_nil sep rest) as Hrest.
  induction 1 as [|c p Hc _ IH]; cbn [app split].
  - by destruct (split sep rest).
  - apply N.eqb_neq in Hc. rewrite Hc, IH.
    by destruct (split sep rest).
Qed.

(** Splitting a joined list gives the parts back when no part holds the
    separator. *)
Lemma split_join sep parts :
  parts ≠ [] → Forall (Forall (λ c, c ≠ sep)) parts →
  split sep (join [sep] parts) = parts.
Proof.
  induction parts as [|p parts IH]; [done|]. intros _ Hparts.
  apply Forall_cons in Hparts as [Hp Hparts].
  destruct parts as [|q parts].
  - cbn [join]. rewrite <- (app_nil_r p) at 1.
    rewrite split_app_no_separator by done. cbn. by rewrite app_nil_r.
  - change (join [sep] (p :: q :: parts))
      with (p ++ sep :: join [sep] (q :: parts)).
    rewrite split_app_no_separator by done.
    cbn [split]. rewrite N.eqb_refl, IH by done. by rewrite app_nil_r.
Qed.

Lemma mapR_all_Ok {A B} (f : A → result B) l :
  (∀ x, x ∈ l → ∃ y, f x = Ok y) → ∃ l', mapR f l = Ok l'.
Proof.
  induction l as [|x l IH]; intros Hall; [by exists []|].
  destruct (Hall x) as [y Hy]; [left|].
  destruct IH as [l' Hl']; [intros x' ?; apply Hall; by right|].
  exists (y :: l'). cbn. by rewrite Hy, Hl'.
Qed.


End DigestFacts.

(** ** The expiry engine *)

Module ExpiryFacts.
Import Js Utils UnstorageCache Spec.
Local Open Scope Z_scope.

Lemma pickConfigWithTtl_firstTtl now config :
  match pickConfigWithTtl config with
  | Some cfg => config = Some cfg ∧ is_Some (firstTtl now cfg)
  | None => config ≫= firstTtl now = None
  end.
Proof.
  destruct config as [[ex px exat pxat keep]|]; [|done].
  unfold pickConfigWithTtl, firstTtl. cbn.
  destruct ex, px, exat, pxat; cbn; eauto.
Qed.

(** C6: when no previous expiry is kept, the expiry comes from the first
    TTL field of the request config in the order relative milliseconds,
    relative seconds, absolute milliseconds, absolute seconds; from the
    default config, in the same order, when the request has none of the
    four; and is [now + 1000] when neither has one. *)
Theorem toExpiresAt_priority self now config existing :
  keepTtlApplies now config existing = false →
  toExpiresAt self now config existing =
  Some (resolveByPriority now config (defaultConfig self)).
Proof.
  intros Hno. unfold toExpiresAt.
  assert (match existing with
          | Some e =>
              match config with
              | Some cfg => default false (CacheConfig.keepTtl cfg)
              | None => false
              end && negb (e =? 0) && (now <? e)
          | None => false
          end = false) as ->.
  { destruct existing as [e|]; [|done].
    destruct config as [cfg|]; [|done].
    unfold keepTtlApplies in Hno.
    destruct (CacheConfig.keepTtl cfg) as [[]|] eqn:Hk; try done.
    rewrite bool_decide_eq_true_2 in Hno by done. cbn in Hno.
    rewrite Hno. by rewrite andb_false_r. }
  unfold resolveByPriority.
  pose proof (pickConfigWithTtl_firstTtl now config) as Hreq.
  pose proof (pickConfigWithTtl_firstTtl now (defaultConfig self)) as Hdef.
  destruct (pickConfigWithTtl config) as [cfg|].
  - destruct Hreq as [-> [x Hx]]. cbn. rewrite Hx.
    revert Hx. unfold firstTtl.
    destruct (CacheConfig.px cfg), (CacheConfig.ex cfg),
      (CacheConfig.pxat cfg), (CacheConfig.exat cfg); congruence.
  - rewrite Hreq.
    destruct (pickConfigWithTtl (defaultConfig self)) as [cfg|].
    + destruct Hdef as [-> [x Hx]]. cbn. rewrite Hx.
      revert Hx. unfold firstTtl.
      destruct (CacheConfig.px cfg), (CacheConfig.ex cfg),
        (CacheConfig.pxat cfg), (CacheConfig.exat cfg); congruence.
    + rewrite Hdef. reflexivity.
Qed.

Lemma toExpiresAt_reuse self now cfg e :
  0 ≤ now → CacheConfig.keepTtl cfg = Some true → now < e →
  toExpiresAt self now (Some cfg) (Some e) = Some e.
Proof.
  intros Hnow Hkeep He. unfold toExpiresAt. rewrite Hkeep. cbn.
  destruct (Z.eqb_spec e 0); [lia|].
  destruct (Z.ltb_spec now e); [done | lia].
Qed.

End ExpiryFacts.

(** ** Computations over the backend *)

Module StorageFacts.
Import Js Uri Utils Storage UnstorageCache Spec ResultFacts.

Section WithPayload.
Context {V : Type}.
Implicit Types (m : gmap jsstring (StorageValue V)) (b : Storage.t V).

Lemma removeAll_cons k keys m :
  removeAll (k :: keys) m = removeAll keys (delete k m).
Proof. reflexivity. Qed.

Lemma setAll_cons k v writes m :
  setAll ((k, v) :: writes) m = setAll writes (<[k := v]> m).
Proof. reflexivity. Qed.

Lemma removeAll_lookup_None keys m k :
  m !! k = None → removeAll keys m !! k = None.
Proof.
  revert m. induction keys as [|k' keys IH]; intros m Hk; [done|].
  apply IH. rewrite lookup_delete_None. by right.
Qed.

Lemma removeAll_lookup_in keys m k : k ∈ keys → removeAll keys m !! k = None.
Proof.
  revert m. induction keys as [|k' keys IH]; intros m Hin.
  - by apply elem_of_nil in Hin.
  - destruct (decide (k = k')) as [->|Hne].
    + apply (removeAll_lookup_None keys (delete k' m)), lookup_delete_eq.
    + apply (IH (delete k' m)). apply elem_of_cons in Hin as [?|?]; done.
Qed.

Lemma removeAll_lookup_notin keys m k :
  k ∉ keys → removeAll keys m !! k = m !! k.
Proof.
  revert m. induction keys as [|k' keys IH]; intros m Hin; [done|].
  apply not_elem_of_cons in Hin as [Hne Hin].
  rewrite removeAll_cons, IH by done. by apply lookup_delete_ne.
Qed.

Lemma removeAll_app keys1 keys2 m :
  removeAll (keys1 ++ keys2) m = removeAll keys2 (removeAll keys1 m).
Proof. apply foldl_app. Qed.

Lemma setAll_lookup_notin writes m k :
  k ∉ writes.*1 → setAll writes m !! k = m !! k.
Proof.
  revert m. induction writes as [|[k' v] writes IH]; intros m Hin; [done|].
  cbn in Hin. apply not_elem_of_cons in Hin as [Hne Hin].
  rewrite setAll_cons, IH by done. by apply lookup_insert_ne.
Qed.

Lemma setAll_snoc_lookup writes k v m :
  setAll (writes ++ [(k, v)]) m !! k = Some v.
Proof.
  unfold setAll. rewrite foldl_app. cbn. apply lookup_insert_eq.
Qed.

Lemma forEach_removeItem keys b :
  forEach removeItem keys b =
  (Ok (), Storage.mk (removeAll keys (items b))
                     (journal b ++ map RemoveItem keys)).
Proof.
  revert b. induction keys as [|k keys IH]; intros [m j].
  - cbn. by rewrite app_nil_r.
  - cbn [forEach]. unfold bind at 1. cbn [removeItem]. rewrite IH.
    cbn. by rewrite <- app_assoc.
Qed.

Lemma setMany_run writes ttl b :
  setMany writes ttl b =
  (Ok (), Storage.mk (setAll writes (items b))
            (journal b ++
             map (λ w, SetItem w.1 w.2 (ttlOptions ttl)) writes)).
Proof.
  unfold setMany. revert b.
  induction writes as [|[k v] writes IH]; intros [m j].
  - cbn. by rewrite app_nil_r.
  - cbn [forEach]. unfold bind at 1. cbn [setItem]. rewrite IH.
    cbn. by rewrite <- app_assoc.
Qed.

(** Removing the index records of the tables one after the other, as
    [dropEntry] and [invalidateTag] do. *)
Lemma forEach_remove_index tables tablesKey isTag keyEnc indexKeys b :
  mapR (λ table, indexKey table tablesKey isTag keyEnc) tables
    = Ok indexKeys →
  forEach (λ table,
             let! key := lift (indexKey table tablesKey isTag keyEnc) in
             removeItem key)
          tables b =
  (Ok (), Storage.mk (removeAll indexKeys (items b))
                     (journal b ++ map RemoveItem indexKeys)).
Proof.
  revert indexKeys b.
  induction tables as [|table tables IH]; intros indexKeys [m j] Hk.
  - injection Hk as <-. cbn. by rewrite app_nil_r.
  - cbn in Hk.
    destruct (indexKey table tablesKey isTag keyEnc) as [k|] eqn:Hkey;
      [|done].
    cbn in Hk.
    destruct (mapR _ tables) as [ks|] eqn:Hks; [|done].
    injection Hk as <-.
    cbn [forEach]. unfold bind at 1. unfold bind at 1. unfold lift at 1.
    rewrite Hkey. cbn [removeItem]. rewrite (IH ks) by done.
    cbn. by rewrite <- app_assoc.
Qed.

Lemma mapR_indexKey tables tablesKey isTag keyEnc encoded :
  mapR encode tables = Ok encoded →
  ∃ indexKeys,
    mapR (λ table, indexKey table tablesKey isTag keyEnc) tables
      = Ok indexKeys.
Proof.
  intros Henc. unfold indexKey. rewrite mapR_rmap, Henc. cbn. eauto.
Qed.

End WithPayload.
End StorageFacts.

(** ** Keys *)

Module KeyFacts.
Import Js Uri Utils UnstorageCache.

Lemma valueKey_ne_tagMapKey auto isTag keyEnc tablesKey tagEnc :
  valueKey auto isTag keyEnc tablesKey ≠ tagMapKey tagEnc.
Proof.
  unfold valueKey, tagMapKey. destruct auto; cbn; intros [=].
Qed.

Lemma indexKey_ne_valueKey table tablesKey isTag keyEnc key
    auto isTag' keyEnc' tablesKey' :
  indexKey table tablesKey isTag keyEnc = Ok key →
  key ≠ valueKey auto isTag' keyEnc' tablesKey'.
Proof.
  unfold indexKey, valueKey. destruct (encode table); [|done].
  cbn. intros [= <-]. destruct auto; cbn; intros [=].
Qed.

Lemma indexKey_ne_tagMapKey table tablesKey isTag keyEnc key tagEnc :
  indexKey table tablesKey isTag keyEnc = Ok key → key ≠ tagMapKey tagEnc.
Proof.
  unfold indexKey, tagMapKey. destruct (encode table); [|done].
  cbn. intros [= <-]. intros [=].
Qed.

End KeyFacts.

(** ** The cache operations *)

Module CacheFacts.
Import Js Uri Utils Storage UnstorageCache Spec.
Import UriFacts ResultFacts DigestFacts ExpiryFacts StorageFacts KeyFacts.

Section WithPayload.
Context {V : Type}.
Implicit Types (m : gmap jsstring (StorageValue V)) (b : Storage.t V).

Lemma dropEntry_run (params : DropParams.t V) fallback indexKeys b :
  DropParams.fallbackTables params = Some fallback →
  (DropParams.autoInvalidate params = true →
   is_Some (DropParams.tablesKey params)) →
  (DropParams.autoInvalidate params
   && truthy (default [] (DropParams.tablesKey params)) = true →
   mapR (λ table, indexKey table (default [] (DropParams.tablesKey params))
                           (DropParams.isTag params)
                           (DropParams.keyEnc params))
        (default fallback (DropParams.entry params ≫= CacheEntry.tables))
     = Ok indexKeys) →
  dropEntry params b =
  (Ok (), Storage.mk (removeAll (droppedKeys params indexKeys) (items b))
            (journal b ++ map RemoveItem (droppedKeys params indexKeys))).
Proof.
  destruct params as [auto isTag keyEnc tablesKey entry fb rtm].
  cbn [DropParams.fallbackTables DropParams.autoInvalidate
       DropParams.tablesKey DropParams.isTag DropParams.keyEnc
       DropParams.entry].
  intros -> Hauto Hkeys. destruct b as [m j].
  unfold dropEntry, droppedKeys.
  cbn [DropParams.fallbackTables DropParams.autoInvalidate
       DropParams.tablesKey DropParams.isTag DropParams.keyEnc
       DropParams.entry DropParams.removeTagMap].
  set (tables := default fallback (entry ≫= CacheEntry.tables)) in *.
  assert (match entry ≫= CacheEntry.tables with
          | Some tables => Ok tables
          | None => Ok fallback
          end = Ok tables) as Htables.
  { unfold tables. by destruct (entry ≫= CacheEntry.tables). }
  unfold bind at 1. unfold lift at 1.
  replace (match entry ≫= CacheEntry.tables with
           | Some tables0 => Ok tables0
           | None => Ok fallback
           end) with (Ok (A:=list jsstring) tables).
  assert (∀ b',
    (if isTag && rtm then removeItem (tagMapKey keyEnc) else ret ()) b' =
    (Ok (), Storage.mk
       (removeAll (if isTag && rtm then [tagMapKey keyEnc] else [])
                  (items b'))
       (journal b' ++ map RemoveItem
          (if isTag && rtm then [tagMapKey keyEnc] else [])))) as Htag.
  { intros [m' j']. destruct (isTag && rtm); cbn; [done|].
    by rewrite app_nil_r. }
  destruct auto.
  - destruct (Hauto eq_refl) as [tk ->].
    unfold bind at 1. unfold lift at 1.
    unfold bind at 1. cbn [removeItem items journal].
    unfold bind at 1.
    rewrite Htag. cbn [items journal default from_option id] in *.
    destruct tk as [|c k].
    + cbn [truthy andb]. rewrite !app_nil_r.
      unfold ret. rewrite removeAll_cons. f_equal. f_equal.
      by rewrite <- app_assoc.
    + cbn [truthy andb negb orb]. specialize (Hkeys eq_refl).
      destruct (length tables =? 0)%nat eqn:Hlen.
      * apply Nat.eqb_eq in Hlen.
        apply mapR_Ok_length in Hkeys. rewrite Hlen in Hkeys.
        destruct indexKeys; [|done]. rewrite !app_nil_r.
        unfold ret. rewrite removeAll_cons. f_equal. f_equal.
        by rewrite <- app_assoc.
      * rewrite (forEach_remove_index _ _ _ _ indexKeys) by done.
        cbn [items journal]. rewrite removeAll_cons, removeAll_app.
        f_equal. f_equal. cbn [map]. rewrite map_app, <- !app_assoc. done.
  - unfold bind at 1. unfold lift at 1.
    unfold bind at 1. cbn [removeItem items journal].
    unfold bind at 1. cbn [andb]. rewrite app_nil_r.
    rewrite Htag. cbn [items journal].
    unfold ret. rewrite removeAll_cons. f_equal. f_equal.
    by rewrite <- app_assoc.
Qed.

Lemma removeAll_lookup_Some keys m k v :
  removeAll keys m !! k = Some v → m !! k = Some v.
Proof.
  intros Hk. destruct (decide (k ∈ keys)) as [Hin|Hin].
  - by rewrite removeAll_lookup_in in Hk.
  - by rewrite removeAll_lookup_notin in Hk.
Qed.

Lemma getEntry_run key b :
  getEntry key b = (Ok (entryAt (items b) key), record (GetItem key) b).
Proof. reflexivity. Qed.

Lemma digestIf_encoded tables tablesKey :
  digestIf (0 <? length tables)%nat tables = Ok tablesKey →
  ∃ encoded, mapR encode tables = Ok encoded.
Proof.
  destruct tables as [|t ts]; [by exists []|].
  unfold digestIf, makeTablesKey. cbn [length Nat.ltb Nat.leb].
  destruct (mapR encode (t :: ts)); [eauto | done].
Qed.

(** [put] up to the point where it either cleans up or writes. *)
Lemma put_run self now key response tables isTag config keyEnc tablesKey b :
  encode key = Ok keyEnc →
  digestIf (0 <? length tables)%nat tables = Ok tablesKey →
  let auto := (0 <? length tables)%nat in
  let vk := valueKey auto isTag keyEnc tablesKey in
  let b1 := if keepTtlRequested config then record (GetItem vk) b else b in
  let expiresAt := putExpiry self now config (items b) vk in
  put self now key response tables isTag config b =
  if match expiresAt with Some e => (e <=? now)%Z | None => false end then
    dropEntry (DropParams.mk auto isTag keyEnc tablesKey None
                             (Some tables) false) b1
  else
    let entry := CacheEntry.mk response expiresAt
                   (if auto then Some tables else None) in
    match (if auto then tablesKey else None) with
    | Some (c :: k) =>
        (let! indexKeys :=
           lift (mapR (λ table, indexKey table (c :: k) isTag keyEnc)
                      tables) in
         setMany
           (let writes :=
              [(vk, VEntry entry)] ++
              map (λ indexKey, (indexKey, VNumber (default 1%Z expiresAt)))
                  indexKeys in
            if isTag then writes ++ [(tagMapKey keyEnc, VString (c :: k))]
            else writes)
           (ttlSecondsOf now <$> expiresAt)) b1
    | _ =>
        setMany (if isTag
                 then [(vk, VEntry entry)] ++
                      [(tagMapKey keyEnc, VString (str "NAI"))]
                 else [(vk, VEntry entry)])
                (ttlSecondsOf now <$> expiresAt) b1
    end.
Proof.
  intros Henc Hdig. cbv zeta. unfold put.
  unfold bind at 1. unfold lift at 1. rewrite Henc.
  unfold bind at 1. unfold lift at 1.
  unfold digestIf in Hdig. rewrite Hdig.
  fold (keepTtlRequested config).
  unfold bind at 1. unfold putExpiry.
  destruct (keepTtlRequested config);
    [rewrite getEntry_run|]; cbn [ret mbind option_bind];
    (destruct (match toExpiresAt _ _ _ _ with
               | Some e => (e <=? now)%Z | None => false end);
     [reflexivity|]);
    destruct (0 <? length tables)%nat; [|reflexivity| |reflexivity];
    destruct tablesKey as [[|c k]|]; reflexivity.
Qed.

Lemma getString_run key b :
  getString key b = (Ok (stringAt (items b) key), record (GetItem key) b).
Proof. reflexivity. Qed.

(** C10: a tag lookup whose tag-map record is missing returns absent after
    the single read of that record; the entry store is not read, so a value
    record that is still stored cannot be reached. *)
Theorem get_tag_without_map self now key tables hint keyEnc b :
  encode key = Ok keyEnc →
  items b !! tagMapKey keyEnc = None →
  get self now key tables true hint b =
  (Ok None, Storage.mk (items b) (journal b ++ [GetItem (tagMapKey keyEnc)])).
Proof.
  intros Henc Hmap. unfold get.
  unfold bind at 1. unfold lift at 1. rewrite Henc.
  unfold bind at 1. rewrite getString_run.
  unfold stringAt. rewrite Hmap. reflexivity.
Qed.

(** C4: a store whose resolved expiry is not in the future writes nothing;
    it runs [dropEntry], the cleanup of an expired read, which removes the
    value record of the slot and the index records of the tables. *)
Theorem put_dead_on_arrival self now key response tables isTag config
    keyEnc tablesKey expiry b :
  encode key = Ok keyEnc →
  digestIf (0 <? length tables)%nat tables = Ok tablesKey →
  putExpiry self now config (items b)
    (valueKey (0 <? length tables)%nat isTag keyEnc tablesKey) = Some expiry →
  (expiry ≤ now)%Z →
  ∃ b',
    put self now key response tables isTag config b = (Ok (), b') ∧
    items b' =
      items (dropEntry (DropParams.mk (0 <? length tables)%nat isTag keyEnc
                          tablesKey None (Some tables) false) b).2 ∧
    items b' !! valueKey (0 <? length tables)%nat isTag keyEnc tablesKey
      = None ∧
    (∀ table indexKey',
       table ∈ tables → default [] tablesKey ≠ [] →
       indexKey table (default [] tablesKey) isTag keyEnc = Ok indexKey' →
       items b' !! indexKey' = None) ∧
    (∀ k v, items b' !! k = Some v → items b !! k = Some v).
Proof.
  intros Henc Hdig Hexp Hdead.
  rewrite (put_run _ _ _ _ _ _ _ keyEnc tablesKey) by done.
  cbv zeta. rewrite Hexp.
  destruct (Z.leb_spec expiry now); [|lia].
  destruct (digestIf_encoded _ _ Hdig) as [encoded Hencoded].
  remember (0 <? length tables)%nat as auto eqn:Heqauto.
  set (params := DropParams.mk auto isTag keyEnc tablesKey
                   (@None (CacheEntry.t V)) (Some tables) false).
  destruct (mapR_indexKey tables (default [] tablesKey) isTag keyEnc
              _ Hencoded) as [indexKeys Hkeys].
  assert (Hauto : DropParams.autoInvalidate params = true →
                  is_Some (DropParams.tablesKey params)).
  { cbn. intros ->. unfold digestIf in Hdig.
    destruct (makeTablesKey tables); [|done]. injection Hdig as <-. eauto. }
  assert (Hrun : ∀ b0, dropEntry params b0 =
    (Ok (), Storage.mk (removeAll (droppedKeys params indexKeys) (items b0))
              (journal b0 ++ map RemoveItem (droppedKeys params indexKeys)))).
  { intros b0. by apply (dropEntry_run params tables). }
  rewrite !Hrun.
  assert (Hitems : items (if keepTtlRequested config
                          then record (GetItem (valueKey auto isTag keyEnc
                                                         tablesKey)) b
                          else b) = items b)
    by (by destruct (keepTtlRequested config)).
  eexists. split; [reflexivity|]. cbn [items snd]. rewrite Hitems.
  split; [reflexivity|]. split; [|split].
  - apply removeAll_lookup_in. unfold droppedKeys. cbn.
    unfold digestIf in Hdig.
    destruct auto; [left|].
    injection Hdig as <-. left.
  - intros table ik Hin Hne Hik.
    apply removeAll_lookup_in. unfold droppedKeys. cbn.
    right. rewrite elem_of_app. right.
    assert (auto = true) as ->.
    { subst auto. destruct tables; [by apply elem_of_nil in Hin | done]. }
    cbn [andb].
    destruct (default [] tablesKey) as [|c k] eqn:Htk; [done|].
    cbn [truthy].
    destruct (mapR_Ok_elem _ _ _ table Hkeys Hin) as (ik' & Hik' & Hin').
    cbn beta in Hik'. congruence.
  - intros k v. apply removeAll_lookup_Some.
Qed.


(** What [found] says, path by path. *)
Lemma found_tag m key tables hint auto tablesKey keyEnc (entry : CacheEntry.t V) :
  found m key tables true hint = Ok (Some (auto, tablesKey, keyEnc, entry)) →
  ∃ mapValue,
    encode key = Ok keyEnc ∧
    stringAt m (tagMapKey keyEnc) = Some mapValue ∧ mapValue ≠ [] ∧
    auto = negb (bool_decide (mapValue = str "NAI")) ∧
    tablesKey = (if auto then Some mapValue else None) ∧
    entryAt m (valueKey auto true keyEnc tablesKey) = Some entry.
Proof.
  unfold found. destruct (encode key) as [ke|]; [|done]. cbn [rbind].
  destruct (stringAt m (tagMapKey ke)) as [[|c k]|] eqn:Hmap; try done.
  cbv zeta. intros [= (e & He & [= <- <- <- <-])%bind_Some].
  by exists (c :: k).
Qed.

Lemma found_query m key tables hint auto tablesKey keyEnc (entry : CacheEntry.t V) :
  found m key tables false hint = Ok (Some (auto, tablesKey, keyEnc, entry)) →
  encode key = Ok keyEnc ∧
  auto = default (0 <? length tables)%nat hint ∧
  digestIf auto tables = Ok tablesKey ∧
  entryAt m (valueKey auto false keyEnc tablesKey) = Some entry.
Proof.
  unfold found. destruct (encode key) as [ke|]; [|done]. cbn [rbind].
  destruct (digestIf _ tables) as [tk|] eqn:Hdig; [|done]. cbn [rbind].
  intros [= (e & He & [= <- <- <- <-])%bind_Some]. done.
Qed.



(** A store whose resolved expiry is in the future writes the entry into
    its slot and, for a tag, the tag-map record: the digest when it is not
    empty, ["NAI"] otherwise. *)
Lemma put_stores self now key response tables isTag config
    keyEnc tablesKey expiry b :
  encode key = Ok keyEnc →
  digestIf (0 <? length tables)%nat tables = Ok tablesKey →
  putExpiry self now config (items b)
    (valueKey (0 <? length tables)%nat isTag keyEnc tablesKey) = Some expiry →
  (now < expiry)%Z →
  ∃ b',
    put self now key response tables isTag config b = (Ok (), b') ∧
    items b' !! valueKey (0 <? length tables)%nat isTag keyEnc tablesKey =
      Some (VEntry (CacheEntry.mk response (Some expiry)
                      (if (0 <? length tables)%nat then Some tables
                       else None))) ∧
    (isTag = true →
     items b' !! tagMapKey keyEnc =
       Some (VString match tablesKey with
                     | Some (c :: k) => c :: k
                     | _ => str "NAI"
                     end)).
Proof.
  intros Henc Hdig Hexp Hlive.
  rewrite (put_run _ _ _ _ _ _ _ keyEnc tablesKey) by done.
  cbv zeta. rewrite Hexp.
  destruct (Z.leb_spec expiry now); [lia|].
  destruct (digestIf_encoded _ _ Hdig) as [encoded Hencoded].
  assert (Hnone : (0 <? length tables)%nat = false → tablesKey = None).
  { unfold digestIf in Hdig. intros Ha. rewrite Ha in Hdig. congruence. }
  remember (0 <? length tables)%nat as auto eqn:Heqauto.
  set (vk := valueKey auto isTag keyEnc tablesKey).
  set (b1 := if keepTtlRequested config then record (GetItem vk) b else b).
  set (entry := CacheEntry.mk response (Some expiry)
                  (if auto then Some tables else None)).
  assert (Hshort : ∀ mapValue,
    ∃ b', setMany (if isTag
                   then [(vk, VEntry entry)] ++
                        [(tagMapKey keyEnc, VString mapValue)]
                   else [(vk, VEntry entry)])
                  (ttlSecondsOf now <$> Some expiry) b1 = (Ok (), b') ∧
          items b' !! vk = Some (VEntry entry) ∧
          (isTag = true →
           items b' !! tagMapKey keyEnc = Some (VString mapValue))).
  { intros mapValue. rewrite setMany_run. eexists. split; [reflexivity|].
    cbn [items]. destruct isTag.
    - split; [|intros _; apply setAll_snoc_lookup].
      cbn [app]. rewrite setAll_cons, setAll_lookup_notin.
      + apply lookup_insert_eq.
      + cbn. rewrite list_elem_of_singleton. apply valueKey_ne_tagMapKey.
    - split; [apply lookup_insert_eq | done]. }
  destruct (if auto then tablesKey else None) as [[|c k]|] eqn:Htk.
  - destruct (Hshort (str "NAI")) as (b' & Hrun & Hvk & Htag).
    exists b'. split; [done|]. split; [done|].
    destruct auto; [|done]. subst tablesKey. exact Htag.
  - destruct auto; [subst tablesKey | done].
    destruct (mapR_indexKey tables (c :: k) isTag keyEnc _ Hencoded)
      as [indexKeys Hkeys].
    unfold bind at 1. unfold lift at 1. rewrite Hkeys.
    rewrite setMany_run. eexists. split; [reflexivity|]. cbn [items].
    assert (Hnotin :
      vk ∉ (map (λ indexKey0 : jsstring,
                   (indexKey0, VNumber (V:=V) (default 1%Z (Some expiry))))
                indexKeys).*1).
    { assert (Hne : ∀ ik, ik ∈ indexKeys → ik ≠ vk).
      { intros ik Hin.
        destruct (mapR_Ok_elem_inv _ _ _ _ Hkeys Hin) as (t & _ & Ht).
        exact (indexKey_ne_valueKey _ _ _ _ _ _ _ _ _ Ht). }
      clear -Hne. induction indexKeys as [|ik iks IH]; cbn.
      - apply not_elem_of_nil.
      - apply not_elem_of_cons. split.
        + apply not_eq_sym, Hne. left.
        + apply IH. intros ik' Hin. apply Hne. by right. }
    destruct isTag.
    + split; [|intros _; apply setAll_snoc_lookup].
      cbn [app]. rewrite setAll_cons, setAll_lookup_notin.
      * apply lookup_insert_eq.
      * rewrite fmap_app. intros [Hin|Hin]%elem_of_app; [done|].
        apply list_elem_of_fmap in Hin
          as ([k' v'] & Hk & [= -> ->]%list_elem_of_singleton).
        exact (valueKey_ne_tagMapKey _ _ _ _ _ Hk).
    + split; [|done].
      cbn [app]. rewrite setAll_cons, setAll_lookup_notin by done.
      apply lookup_insert_eq.
  - destruct (Hshort (str "NAI")) as (b' & Hrun & Hvk & Htag).
    exists b'. split; [done|]. split; [done|].
    destruct auto; [subst tablesKey | rewrite Hnone by done]; exact Htag.
Qed.


(** A lookup that finds an entry that is not expired returns its value
    and leaves the items as they are. *)
Lemma get_hit self now key tables isTag hint
    auto tablesKey keyEnc (entry : CacheEntry.t V) b :
  found (items b) key tables isTag hint
    = Ok (Some (auto, tablesKey, keyEnc, entry)) →
  isExpired now entry = false →
  ∃ b', get self now key tables isTag hint b
          = (Ok (Some (CacheEntry.value entry)), b') ∧
        items b' = items b.
Proof.
  intros Hfound Hlive. unfold get. destruct isTag.
  - apply found_tag in Hfound
      as (mv & Henc & Hmap & Hne & Hauto & Htk & Hentry).
    unfold bind at 1. unfold lift at 1. rewrite Henc.
    unfold bind at 1. rewrite getString_run, Hmap.
    destruct mv as [|c k]; [done|].
    rewrite <- Hauto, <- Htk.
    unfold bind at 1. rewrite getEntry_run. cbn [items record].
    rewrite Hentry, Hlive. cbn. eauto.
  - apply found_query in Hfound as (Henc & Hauto & Hdig & Hentry).
    unfold bind at 1. unfold lift at 1. rewrite Henc.
    unfold bind at 1. unfold lift at 1.
    rewrite <- Hauto. unfold digestIf in Hdig. rewrite Hdig.
    unfold bind at 1. rewrite getEntry_run. cbn [items record].
    rewrite Hentry, Hlive. cbn. eauto.
Qed.

(** A lookup that finds no entry returns absent and leaves the items as
    they are. *)
Lemma get_miss self now key tables isTag hint b :
  found (items b) key tables isTag hint = Ok None →
  ∃ b', get self now key tables isTag hint b = (Ok None, b') ∧
        items b' = items b.
Proof.
  unfold found, get.
  destruct (encode key) as [keyEnc|] eqn:Henc; [|done]. cbn [rbind].
  unfold bind at 1. unfold lift at 1. destruct isTag.
  - unfold bind at 1. rewrite getString_run.
    destruct (stringAt (items b) (tagMapKey keyEnc)) as [[|c k]|];
      [cbn; eauto| |cbn; eauto].
    cbv zeta. intros [= Hentry].
    unfold bind at 1. rewrite getEntry_run. cbn [items record].
    destruct (entryAt (items b) _) as [entry|]; [done|]. cbn. eauto.
  - destruct (digestIf _ tables) as [tablesKey|] eqn:Hdig; [|done].
    unfold digestIf in Hdig. unfold bind at 1. unfold lift at 1.
    rewrite Hdig. cbn [rbind]. intros [= Hentry].
    unfold bind at 1. rewrite getEntry_run. cbn [items record].
    destruct (entryAt (items b) _) as [entry|]; [done|]. cbn. eauto.
Qed.

(** C5: with [keepTtl] set and an existing entry in the slot whose
    [expiresAt] is after [now], the resolved expiry is that [expiresAt],
    whatever the other fields of the request config and the default config
    say, and the entry is stored with it. [now] is a time since the epoch. *)
Theorem put_keepTtl_reuses_expiry self now key response tables isTag cfg
    keyEnc tablesKey (existing : CacheEntry.t V) expiry b :
  (0 ≤ now)%Z →
  CacheConfig.keepTtl cfg = Some true →
  encode key = Ok keyEnc →
  digestIf (0 <? length tables)%nat tables = Ok tablesKey →
  items b !! valueKey (0 <? length tables)%nat isTag keyEnc tablesKey
    = Some (VEntry existing) →
  CacheEntry.expiresAt existing = Some expiry →
  (now < expiry)%Z →
  toExpiresAt self now (Some cfg) (Some expiry) = Some expiry ∧
  ∃ b',
    put self now key response tables isTag (Some cfg) b = (Ok (), b') ∧
    items b' !! valueKey (0 <? length tables)%nat isTag keyEnc tablesKey =
      Some (VEntry (CacheEntry.mk response (Some expiry)
                      (if (0 <? length tables)%nat then Some tables
                       else None))).
Proof.
  intros Hnow Hkeep Henc Hdig Hslot Hexp Hfuture.
  pose proof (toExpiresAt_reuse self now cfg expiry Hnow Hkeep Hfuture)
    as Hreuse.
  split; [done|].
  destruct (put_stores self now key response tables isTag (Some cfg)
              keyEnc tablesKey expiry b) as (b' & Hput & Hstored & _);
    [done.. | | done | by exists b'].
  unfold putExpiry, keepTtlRequested, entryAt.
  rewrite Hkeep, bool_decide_eq_true_2 by done.
  rewrite Hslot. cbn. by rewrite Hexp.
Qed.


Lemma collectIndexKeys_run tables encoded indexKeys b :
  mapR encode tables = Ok encoded →
  ∃ keys b', collectIndexKeys (V:=V) tables indexKeys b = (Ok keys, b').
Proof.
  revert encoded indexKeys b.
  induction tables as [|table tables IH]; intros encoded indexKeys b Henc.
  - cbn. eauto.
  - cbn in Henc. destruct (encode table) as [tableEnc|] eqn:Ht; [|done].
    cbn in Henc. destruct (mapR encode tables) as [rest|] eqn:Hrest; [|done].
    cbn [collectIndexKeys]. unfold bind at 1. unfold lift at 1. rewrite Ht.
    unfold bind at 1. cbn [getKeys]. by eapply IH.
Qed.

Lemma setAdd_elem set x y : y ∈ setAdd set x ↔ y ∈ set ∨ y = x.
Proof.
  unfold setAdd. destruct (decide (x ∈ set)) as [Hin|Hin].
  - split; [by left | intros [?| ->]; done].
  - rewrite elem_of_app, list_elem_of_singleton. done.
Qed.

Lemma foldl_setAdd_elem l set y :
  y ∈ foldl setAdd set l ↔ y ∈ set ∨ y ∈ l.
Proof.
  revert set. induction l as [|x l IH]; intros set; cbn [foldl].
  - rewrite elem_of_nil. tauto.
  - rewrite IH, setAdd_elem, elem_of_cons. tauto.
Qed.

(** The first loop of the sweep leaves the items as they are and gathers
    only keys under the prefix of one of the tables. *)
Lemma collectIndexKeys_spec tables indexKeys b :
  items (collectIndexKeys (V:=V) tables indexKeys b).2 = items b ∧
  ∀ keys, (collectIndexKeys tables indexKeys b).1 = Ok keys →
    ∀ k, k ∈ keys →
      k ∈ indexKeys ∨
      ∃ table tableEnc,
        table ∈ tables ∧ encode table = Ok tableEnc ∧
        startsWith (INDEX_PREFIX ++ str ":" ++ tableEnc ++ str ":") k = true.
Proof.
  revert indexKeys b.
  induction tables as [|table tables IH]; intros indexKeys b.
  - cbn. split; [done|]. intros keys [= <-] k Hk. by left.
  - cbn [collectIndexKeys]. unfold bind at 1 3. unfold lift at 1 2.
    destruct (encode table) as [tableEnc|] eqn:Henc; [|by split].
    unfold bind at 1 2. cbn [getKeys].
    match goal with
    | |- context [collectIndexKeys tables ?acc ?b1] =>
        destruct (IH acc b1) as [Hitems Hkeys]
    end.
    split; [by rewrite Hitems|].
    intros keys Hrun k Hk.
    destruct (Hkeys keys Hrun k Hk) as [Hacc|(t & te & Ht & Hte & Hpre)].
    + apply foldl_setAdd_elem in Hacc as [Hacc|Hacc]; [by left|].
      apply list_elem_of_filter in Hacc as [Hpre _].
      right. exists table, tableEnc. split; [left | done].
    + right. exists t, te. split; [by right | done].
Qed.

(** The second loop gathers only value keys of auto-invalidated
    entries. *)
Lemma collectValueKeys_elem indexKeys valueKeys k :
  k ∈ collectValueKeys indexKeys valueKeys →
  k ∈ valueKeys ∨
  ∃ isTag keyEnc tablesKey, k = valueKey true isTag keyEnc (Some tablesKey).
Proof.
  revert valueKeys.
  induction indexKeys as [|ik iks IH]; intros valueKeys; cbn; [by left|].
  destruct (parseIndexKey ik) as [parsed|]; [|apply IH].
  intros [Hin|Hnew]%IH; [|by right].
  apply setAdd_elem in Hin as [Hin| ->]; [by left|].
  right. eauto.
Qed.

Lemma valueKey_auto_prefix isTag keyEnc tablesKey :
  startsWith (VALUE_AUTO_PREFIX ++ str ":")
             (valueKey true isTag keyEnc tablesKey) = true.
Proof. reflexivity. Qed.

(** What the sweep by tables leaves alone: every key that is not under
    the prefix of one of the mutated tables and is not the value key of an
    auto-invalidated entry. In particular the index records that an entry
    has under its other tables stay. *)
Lemma invalidateTables_untouched tables k b :
  (∀ table tableEnc,
     table ∈ tables → encode table = Ok tableEnc →
     startsWith (INDEX_PREFIX ++ str ":" ++ tableEnc ++ str ":") k = false) →
  startsWith (VALUE_AUTO_PREFIX ++ str ":") k = false →
  items (invalidateTables (V:=V) tables b).2 !! k = items b !! k.
Proof.
  intros Hprefix Hvalue. unfold invalidateTables.
  destruct tables as [|t ts]; [done|].
  destruct (collectIndexKeys_spec (t :: ts) [] b) as [Hitems Hkeys].
  unfold bind.
  destruct (collectIndexKeys (t :: ts) [] b) as [[keys|e] b1] eqn:Hrun;
    cbn [fst snd] in *; [|by rewrite Hitems].
  destruct keys as [|k0 keys]; [by rewrite <- Hitems|].
  rewrite forEach_removeItem. cbn [snd items]. rewrite Hitems.
  apply removeAll_lookup_notin. intros [Hin|Hin]%elem_of_app.
  - destruct (Hkeys _ eq_refl k Hin) as [[]%elem_of_nil|(t' & te & ? & ? & Hpre)].
    by rewrite (Hprefix t' te) in Hpre.
  - apply collectValueKeys_elem in Hin as [[]%elem_of_nil|(i & ke & tk & ->)].
    by rewrite valueKey_auto_prefix in Hvalue.
Qed.

Lemma parseIndexKey_Some key parsed :
  parseIndexKey key = Some parsed ↔
  ∃ kind,
    split 58 key = [INDEX_PREFIX; Utils.tableEnc parsed;
                    Utils.tablesKey parsed; kind; Utils.keyEnc parsed] ∧
    Utils.tableEnc parsed ≠ [] ∧ Utils.tablesKey parsed ≠ [] ∧
    Utils.keyEnc parsed ≠ [] ∧
    ((kind = str "q" ∧ Utils.isTag parsed = false) ∨
     (kind = str "t" ∧ Utils.isTag parsed = true)).
Proof.
  unfold parseIndexKey, INDEX_PREFIX.
  destruct (split 58 key) as [|p0 [|p1 [|p2 [|p3 [|p4 [|p5 rest]]]]]];
    cbn [length Nat.eqb negb nth drop skipn];
    try (split; [done | by intros (? & [=] & _)]).
  case_bool_decide as Hp0; cbn [negb];
    [|split; [done | intros (? & [=] & _); congruence]].
  subst p0.
  destruct p1 as [|c1 p1]; cbn [truthy negb orb];
    [split; [done | intros (? & [= <- <- <- <-] & ? & _); done]|].
  destruct p2 as [|c2 p2]; cbn [truthy negb orb];
    [split; [done | intros (? & [= <- <- <- <-] & _ & ? & _); done]|].
  destruct p4 as [|c4 p4]; cbn [truthy negb orb];
    [split; [done | intros (? & [= <- <- <- <-] & _ & _ & ? & _); done]|].
  destruct (decide (p3 = str "q")) as [->|Hq].
  { rewrite bool_decide_eq_true_2 by done. cbn [negb andb].
    rewrite bool_decide_eq_false_2 by done. split.
    - intros [= <-]. cbn. exists (str "q"). auto 10.
    - intros (kind & [= Ht Hd Hk Hf] & _ & _ & _ & Hkind).
      destruct parsed as [t d i f]. cbn in *. subst.
      destruct Hkind as [[_ ->]|[[=] _]]. done. }
  rewrite (bool_decide_eq_false_2 (p3 = str "q")) by done. cbn [negb andb].
  case_bool_decide as Ht; cbn [negb]; split.
  - intros [= <-]. cbn. exists (str "t"). subst. auto 10.
  - intros (kind & [= Ht' Hd Hk Hf] & _ & _ & _ & Hkind).
    destruct parsed as [t d i f]. cbn in *. subst.
    destruct Hkind as [[[=] _]|[_ ->]]. done.
  - done.
  - intros (kind & [= Ht' Hd Hk Hf] & _ & _ & _ & [[-> _]|[-> _]]);
      congruence.
Qed.

(** C8: the parser accepts exactly the keys of five parts whose first part
    is the index namespace, whose kind is ["q"] or ["t"] and whose table,
    digest and fingerprint parts are not empty, and then returns those
    parts; in the sweep a key that does not parse contributes no value key,
    and the sweep completes whatever keys the store holds. *)
Theorem parseIndexKey_strict key parsed indexKeys valueKeys tables encoded b :
  mapR encode tables = Ok encoded →
  (parseIndexKey key = Some parsed ↔
   ∃ kind,
     split 58 key = [INDEX_PREFIX; Utils.tableEnc parsed;
                     Utils.tablesKey parsed; kind; Utils.keyEnc parsed] ∧
     Utils.tableEnc parsed ≠ [] ∧ Utils.tablesKey parsed ≠ [] ∧
     Utils.keyEnc parsed ≠ [] ∧
     ((kind = str "q" ∧ Utils.isTag parsed = false) ∨
      (kind = str "t" ∧ Utils.isTag parsed = true))) ∧
  (parseIndexKey key = None →
   collectValueKeys (key :: indexKeys) valueKeys
     = collectValueKeys indexKeys valueKeys) ∧
  ∃ b', invalidateTables (V:=V) tables b = (Ok (), b').
Proof.
  intros Henc. split; [apply parseIndexKey_Some|]. split.
  - intros Hnone. cbn [collectValueKeys]. by rewrite Hnone.
  - unfold invalidateTables. destruct tables as [|t ts]; [cbn; eauto|].
    destruct (collectIndexKeys_run (t :: ts) encoded [] b Henc)
      as (keys & b1 & Hrun).
    unfold bind. rewrite Hrun.
    destruct keys as [|k keys]; [cbn; eauto|].
    rewrite forEach_removeItem. eauto.
Qed.

End WithPayload.
End CacheFacts.

(** ** The scenarios *)

Module ScenarioFacts.
Import Js Uri Utils Storage UnstorageCache Spec Scenario.
Import ExpiryFacts CacheFacts.

(** C1 at the input of the test "invalidates multi-table queries when any
    related table mutates": after an entry is stored for the tables users
    and posts and users mutates, the value record and the index record
    under users are gone, and the index record under posts is still
    there. *)
Theorem invalidateTables_leaves_index_record :
  (items stored !! str "__CT__:posts,users:q:k1" =
     Some (VEntry (CacheEntry.mk 1%Z (Some 61000%Z) (Some [users; posts]))) ∧
   items stored !! str "__CTS__:users:posts,users:q:k1"
     = Some (VNumber 61000) ∧
   items stored !! str "__CTS__:posts:posts,users:q:k1"
     = Some (VNumber 61000)) ∧
  (items mutated !! str "__CT__:posts,users:q:k1" = None ∧
   items mutated !! str "__CTS__:users:posts,users:q:k1" = None ∧
   items mutated !! str "__CTS__:posts:posts,users:q:k1"
     = Some (VNumber 61000)).
Proof. vm_compute. done. Qed.

(** C2 at a notification that names the tag a twice and the table users
    twice: the tag is invalidated twice (two reads of its tag-map record,
    each followed by its removals), the table once (one enumeration). *)
Theorem onMutate_repeats_tag :
  journal repeated =
  [GetItem (str "__tagsMap__:a");
   RemoveItem (str "__NAI__:t:a"); RemoveItem (str "__tagsMap__:a");
   GetItem (str "__tagsMap__:a");
   RemoveItem (str "__NAI__:t:a"); RemoveItem (str "__tagsMap__:a");
   GetKeys (str "__CTS__:users:")].
Proof. vm_compute. reflexivity. Qed.



Lemma put_dead_on_arrival_witness :
  ∃ b',
    put cache 62000 (str "k1") 2%Z [users; posts] false
        (Some (CacheConfig.mk None (Some 0%Z) None None None)) stored
      = (Ok (), b') ∧
    items b' =
      items (dropEntry (DropParams.mk true false (str "k1")
                          (Some (str "posts,users")) None
                          (Some [users; posts]) false) stored).2 ∧
    items b' !! valueKey true false (str "k1") (Some (str "posts,users"))
      = None ∧
    (∀ table indexKey',
       table ∈ [users; posts] → str "posts,users" ≠ [] →
       indexKey table (str "posts,users") false (str "k1") = Ok indexKey' →
       items b' !! indexKey' = None) ∧
    (∀ k v, items b' !! k = Some v → items stored !! k = Some v).
Proof.
  apply (put_dead_on_arrival cache 62000 (str "k1") 2%Z [users; posts] false
           (Some (CacheConfig.mk None (Some 0%Z) None None None))
           (str "k1") (Some (str "posts,users")) 62000 stored).
  - reflexivity.
  - vm_compute. reflexivity.
  - vm_compute. reflexivity.
  - lia.
Defined.

Lemma put_keepTtl_reuses_expiry_witness :
  toExpiresAt cache 1005
    (Some (CacheConfig.mk None (Some 10%Z) None None (Some true)))
    (Some 61000%Z) = Some 61000%Z ∧
  ∃ b',
    put cache 1005 (str "k1") 2%Z [users; posts] false
        (Some (CacheConfig.mk None (Some 10%Z) None None (Some true))) stored
      = (Ok (), b') ∧
    items b' !! valueKey true false (str "k1") (Some (str "posts,users")) =
      Some (VEntry (CacheEntry.mk 2%Z (Some 61000%Z) (Some [users; posts]))).
Proof.
  apply (put_keepTtl_reuses_expiry cache 1005 (str "k1") 2%Z [users; posts]
           false (CacheConfig.mk None (Some 10%Z) None None (Some true))
           (str "k1") (Some (str "posts,users"))
           (CacheEntry.mk 1%Z (Some 61000%Z) (Some [users; posts]))
           61000 stored).
  - lia.
  - reflexivity.
  - reflexivity.
  - vm_compute. reflexivity.
  - vm_compute. reflexivity.
  - reflexivity.
  - lia.
Defined.

Lemma toExpiresAt_priority_witness :
  toExpiresAt cache 1000
    (Some (CacheConfig.mk (Some 5%Z) None (Some 9%Z) (Some 7000%Z)
                          (Some true)))
    None = Some 6000%Z.
Proof.
  apply (toExpiresAt_priority cache 1000
           (Some (CacheConfig.mk (Some 5%Z) None (Some 9%Z) (Some 7000%Z)
                                 (Some true)))
           None).
  reflexivity.
Defined.


Lemma get_tag_without_map_witness :
  items orphaned !! str "__CT__:users:t:tagged" =
    Some (VEntry (CacheEntry.mk 1%Z (Some 1050%Z) (Some [users]))) ∧
  get cache 1000 (str "tagged") [users] true None orphaned =
  (Ok None,
   Storage.mk (items orphaned)
              (journal orphaned ++ [GetItem (tagMapKey (str "tagged"))])).
Proof.
  split; [vm_compute; reflexivity|].
  apply (get_tag_without_map cache 1000 (str "tagged") [users] None
           (str "tagged") orphaned).
  - reflexivity.
  - vm_compute. reflexivity.
Defined.

Lemma parseIndexKey_strict_witness :
  (parseIndexKey (str "__CTS__:users:q:k1")
     = Some (mkParsed users (str "posts,users") false (str "k1")) ↔
   ∃ kind,
     split 58 (str "__CTS__:users:q:k1") =
       [INDEX_PREFIX; users; str "posts,users"; kind; str "k1"] ∧
     users ≠ [] ∧ str "posts,users" ≠ [] ∧ str "k1" ≠ [] ∧
     ((kind = str "q" ∧ false = false) ∨ (kind = str "t" ∧ false = true))) ∧
  (parseIndexKey (str "__CTS__:users:q:k1") = None →
   collectValueKeys [str "__CTS__:users:q:k1";
                     str "__CTS__:users:posts,users:q:k1"] []
     = collectValueKeys [str "__CTS__:users:posts,users:q:k1"] []) ∧
  ∃ b', invalidateTables [users] stored = (Ok (), b').
Proof.
  apply (parseIndexKey_strict (str "__CTS__:users:q:k1")
           (mkParsed users (str "posts,users") false (str "k1"))
           [str "__CTS__:users:posts,users:q:k1"] [] [users] [users] stored).
  reflexivity.
Defined.

End ScenarioFacts.

(** ** Strings, separators and the shape of keys *)

Module KeyShapeFacts.
Import Js Uri Utils Storage UnstorageCache Spec SpecMore.
Import UriFacts ResultFacts DigestFacts.

Lemma join_split sep s : join [sep] (split sep s) = s.
Proof.
  induction s as [|c s IH]; [done|]. cbn [split].
  pose proof (split_not_nil sep s) as Hne.
  destruct (N.eqb_spec c sep) as [->|Hc].
  - destruct (split sep s) as [|q qs]; [done|].
    change (join [sep] ([] :: q :: qs)) with (sep :: join [sep] (q :: qs)).
    by rewrite IH.
  - destruct (split sep s) as [|q qs]; [done|].
    destruct qs as [|q' qs]; cbn [join] in *; by rewrite <- IH.
Qed.

Lemma split_noSep sep s : Forall (noSep sep) (split sep s).
Proof.
  induction s as [|c s IH]; cbn [split]; [by repeat constructor|].
  destruct (N.eqb_spec c sep) as [->|Hc].
  - constructor; [constructor | done].
  - destruct (split sep s) as [|q qs]; [by repeat constructor|].
    apply Forall_cons in IH as [Hq Hqs].
    constructor; [by constructor | done].
Qed.

Lemma split_join_noSep sep parts :
  parts ≠ [] → Forall (noSep sep) parts →
  split sep (join [sep] parts) = parts.
Proof. apply split_join. Qed.

Lemma startsWith_app p s : startsWith p (p ++ s) = true.
Proof.
  induction p as [|c p IH]; [done|]. cbn. by rewrite N.eqb_refl, IH.
Qed.

Lemma startsWith_inv p s : startsWith p s = true → ∃ r, s = p ++ r.
Proof.
  revert s. induction p as [|c p IH]; intros s; [by exists s|].
  destruct s as [|d s]; cbn; [done|].
  intros [->%N.eqb_eq [r ->]%IH]%andb_true_iff. by exists r.
Qed.

Lemma noSep_app sep a b : noSep sep (a ++ b) ↔ noSep sep a ∧ noSep sep b.
Proof. apply Forall_app. Qed.

Lemma join_noSep sep sep' parts :
  sep' ≠ sep → Forall (noSep sep) parts → noSep sep (join [sep'] parts).
Proof.
  intros Hsep. induction 1 as [|p parts Hp Hparts IH]; [constructor|].
  destruct parts as [|q parts]; [done|].
  change (join [sep'] (p :: q :: parts))
    with (p ++ sep' :: join [sep'] (q :: parts)).
  apply noSep_app. split; [done|]. by constructor.
Qed.

(** The parts of the keys: constants, kinds, encoded names and digests
    hold no colon. *)
Lemma kindOf_noSep isTag : noSep 58 (kindOf isTag).
Proof.
  destruct isTag; vm_compute; (constructor; [discriminate|]); constructor.
Qed.

Lemma encode_noColon s e : encode s = Ok e → noSep 58 e.
Proof.
  intros He. eapply Forall_impl; [by apply (encode_no_separator s)|].
  by intros c [_ ?].
Qed.

Lemma encode_noComma s e : encode s = Ok e → noSep 44 e.
Proof.
  intros He. eapply Forall_impl; [by apply (encode_no_separator s)|].
  by intros c [? _].
Qed.

Lemma mapR_encode_noSep sep tables encoded :
  sep = 44%N ∨ sep = 58%N →
  mapR encode tables = Ok encoded → Forall (noSep sep) encoded.
Proof.
  intros Hsep Henc. apply Forall_forall. intros e He.
  destruct (mapR_Ok_elem_inv _ _ _ _ Henc He) as (t & _ & Ht).
  destruct Hsep as [-> | ->]; [by eapply encode_noComma|by eapply encode_noColon].
Qed.

Lemma makeTablesKey_noColon tables tablesKey :
  makeTablesKey tables = Ok tablesKey → noSep 58 tablesKey.
Proof.
  unfold makeTablesKey.
  destruct tables as [|t ts]; [intros [= <-]; constructor|].
  destruct (mapR encode (t :: ts)) as [encoded|] eqn:Henc; [|done].
  intros [= <-]. change (str ",") with [44%N].
  apply join_noSep; [done|].
  rewrite (merge_sort_Permutation _ encoded : sort encoded ≡ₚ encoded).
  by eapply mapR_encode_noSep; [right|].
Qed.

Lemma prefixes_noSep :
  noSep 58 VALUE_AUTO_PREFIX ∧ noSep 58 VALUE_NON_AUTO_PREFIX ∧
  noSep 58 INDEX_PREFIX ∧ noSep 58 TAG_MAP_PREFIX.
Proof.
  repeat split; vm_compute; repeat (constructor; [discriminate|]);
    constructor.
Qed.

Lemma valueKey_auto_split isTag keyEnc tablesKey :
  noSep 58 tablesKey → noSep 58 keyEnc →
  split 58 (valueKey true isTag keyEnc (Some tablesKey)) =
  [VALUE_AUTO_PREFIX; tablesKey; kindOf isTag; keyEnc].
Proof.
  intros Htk Hke.
  change (valueKey true isTag keyEnc (Some tablesKey))
    with (join [58%N] [VALUE_AUTO_PREFIX; tablesKey; kindOf isTag; keyEnc]).
  apply split_join; [done|].
  repeat (apply Forall_cons; split);
    first [done | apply prefixes_noSep | apply kindOf_noSep].
Qed.

Lemma indexKeyOf_split tableEnc tablesKey isTag keyEnc :
  noSep 58 tableEnc → noSep 58 tablesKey → noSep 58 keyEnc →
  split 58 (indexKeyOf tableEnc tablesKey isTag keyEnc) =
  [INDEX_PREFIX; tableEnc; tablesKey; kindOf isTag; keyEnc].
Proof.
  intros Hte Htk Hke.
  change (indexKeyOf tableEnc tablesKey isTag keyEnc)
    with (join [58%N] [INDEX_PREFIX; tableEnc; tablesKey; kindOf isTag;
                       keyEnc]).
  apply split_join; [done|].
  repeat (apply Forall_cons; split);
    first [done | apply prefixes_noSep | apply kindOf_noSep].
Qed.

Lemma indexKey_indexKeyOf table tablesKey isTag keyEnc :
  indexKey table tablesKey isTag keyEnc =
  rmap (λ tableEnc, indexKeyOf tableEnc tablesKey isTag keyEnc)
       (encode table).
Proof. reflexivity. Qed.

Lemma encode_nil_inv s : encode s = Ok [] → s = [].
Proof.
  destruct s as [|c s]; [done|]. unfold encode.
  rewrite encodeURIComponent_cons.
  assert (Hoct : ∀ cp r, flat_map pctEncode (utf8Encode cp) ++ r ≠ []).
  { intros cp r. unfold utf8Encode. by repeat case_match. }
  destruct (isUnescaped c).
  { by destruct (encodeURIComponent s). }
  destruct (isTrailSurrogate c); [done|].
  destruct (isLeadSurrogate c).
  - destruct s as [|d s]; [done|]. destruct (isTrailSurrogate d); [|done].
    destruct (encodeURIComponent s); [|done]. cbn. intros [= H].
    by apply Hoct in H.
  - destruct (encodeURIComponent s); [|done]. cbn. intros [= H].
    by apply Hoct in H.
Qed.

Lemma mapR_Forall2 {A B} (f : A → result B) l l' :
  mapR f l = Ok l' ↔ Forall2 (λ x y, f x = Ok y) l l'.
Proof.
  revert l'. induction l as [|x l IH]; intros l'; cbn.
  - split; [intros [= <-]; constructor | by inv 1].
  - destruct (f x) as [y|e] eqn:Hx; cbn.
    + destruct (mapR f l) as [ys|e] eqn:Hl; cbn.
      * split.
        -- intros [= <-]. constructor; [done|]. by apply IH.
        -- inv 1. f_equal.
           assert (y = y0) as -> by congruence.
           f_equal. apply IH in H4. congruence.
      * split; [done|]. inv 1. apply IH in H4. congruence.
    + split; [done|]. inv 1. congruence.
Qed.

(** Decoding the encodings gives the names back. *)
Lemma mapR_decode_encoded tables encoded :
  Forall inRange tables → mapR encode tables = Ok encoded →
  mapR decodeURIComponent encoded = Ok tables.
Proof.
  intros Hrange Henc%mapR_Forall2. apply mapR_Forall2.
  induction Henc as [|t e ts es He _ IH]; [constructor|].
  apply Forall_cons in Hrange as [Ht Hts].
  constructor; [by apply encode_Ok_decode | by apply IH].
Qed.

Lemma mapR_decode_nonempty tables encoded :
  Forall inRange tables → mapR encode tables = Ok encoded →
  mapR decodeURIComponent (filter (λ p, truthy p = true) encoded) =
  Ok (filter (λ t, t ≠ []) tables).
Proof.
  intros Hrange Henc%mapR_Forall2. apply mapR_Forall2.
  induction Henc as [|t e ts es He _ IH]; [constructor|].
  apply Forall_cons in Hrange as [Ht Hts].
  rewrite !filter_cons. destruct e as [|c e].
  - apply encode_nil_inv in He as ->.
    rewrite decide_False by done.
    rewrite decide_False by (intros H; by apply H).
    by apply IH.
  - rewrite decide_True by done.
    rewrite decide_True by (intros ->; by vm_compute in He).
    constructor; [by apply encode_Ok_decode | by apply IH].
Qed.

Lemma decodeTablesKey_split tablesKey :
  decodeTablesKey (Some tablesKey) =
  mapR decodeURIComponent
       (filter (λ p, truthy p = true) (split 44 tablesKey)).
Proof. by destruct tablesKey. Qed.

Lemma makeTablesKey_sorted tables tablesKey :
  tables ≠ [] → makeTablesKey tables = Ok tablesKey →
  ∃ encoded, mapR encode tables = Ok encoded ∧
             split 44 tablesKey = sort encoded.
Proof.
  intros Hne. unfold makeTablesKey. destruct tables as [|t ts]; [done|].
  destruct (mapR encode (t :: ts)) as [encoded|] eqn:Henc; [|done].
  intros [= <-]. exists encoded. split; [done|].
  change (str ",") with [44%N].
  assert (Hperm : sort encoded ≡ₚ encoded) by apply merge_sort_Permutation.
  apply split_join.
  - intros Hnil. rewrite Hnil in Hperm.
    apply Permutation_nil_l in Hperm. subst.
    apply mapR_Ok_length in Henc. done.
  - rewrite Hperm. by eapply mapR_encode_noSep; [left|].
Qed.

(** X1: a digest decodes to the table names it was made from, in some
    order and without the empty name: [decodeTablesKey] undoes
    [makeTablesKey] up to order for lists of non-empty names. *)
Theorem decodeTablesKey_makeTablesKey_perm tables tablesKey :
  Forall inRange tables →
  makeTablesKey tables = Ok tablesKey →
  ∃ decoded,
    decodeTablesKey (Some tablesKey) = Ok decoded ∧
    decoded ≡ₚ filter (λ table, table ≠ []) tables.
Proof.
  intros Hrange Hkey.
  destruct tables as [|t ts].
  { injection Hkey as <-. by exists []. }
  destruct (makeTablesKey_sorted (t :: ts) tablesKey) as (encoded & Henc & Hsplit);
    [done..|].
  rewrite decodeTablesKey_split, Hsplit.
  pose proof (mapR_decode_nonempty _ _ Hrange Henc) as Hdec.
  assert (Hperm : filter (λ p, truthy p = true) (sort encoded)
                  ≡ₚ filter (λ p, truthy p = true) encoded).
  { apply filter_Permutation, merge_sort_Permutation. }
  destruct (mapR_Permutation decodeURIComponent _ _ Hperm)
    as [[_ Hthrow]|(r1 & r2 & Hr1 & Hr2 & Hr)]; [congruence|].
  exists r1. split; [done|]. congruence.
Qed.

(** X2: two non-empty table lists have the same digest exactly when they
    are permutations of one another: the digest identifies the multiset of
    table names. *)
Theorem makeTablesKey_eq_iff_Permutation tables1 tables2 key1 key2 :
  Forall inRange tables1 → Forall inRange tables2 →
  tables1 ≠ [] → tables2 ≠ [] →
  makeTablesKey tables1 = Ok key1 →
  makeTablesKey tables2 = Ok key2 →
  key1 = key2 ↔ tables1 ≡ₚ tables2.
Proof.
  intros Hr1 Hr2 Hne1 Hne2 Hk1 Hk2. split.
  - intros <-.
    destruct (makeTablesKey_sorted _ _ Hne1 Hk1) as (e1 & He1 & Hs1).
    destruct (makeTablesKey_sorted _ _ Hne2 Hk2) as (e2 & He2 & Hs2).
    assert (Hperm : e1 ≡ₚ e2).
    { rewrite <- (merge_sort_Permutation _ e1 : sort e1 ≡ₚ e1).
      rewrite <- (merge_sort_Permutation _ e2 : sort e2 ≡ₚ e2).
      by rewrite <- Hs1, <- Hs2. }
    pose proof (mapR_decode_encoded _ _ Hr1 He1) as Hd1.
    pose proof (mapR_decode_encoded _ _ Hr2 He2) as Hd2.
    destruct (mapR_Permutation decodeURIComponent _ _ Hperm)
      as [[Hthrow _]|(r1 & r2 & Hr1' & Hr2' & Hr)]; congruence.
  - intros Hperm.
    pose proof (makeTablesKey_Permutation _ _ Hperm). congruence.
Qed.

Lemma valueKey_nonauto_split isTag keyEnc tablesKey :
  noSep 58 keyEnc →
  split 58 (valueKey false isTag keyEnc tablesKey) =
  [VALUE_NON_AUTO_PREFIX; kindOf isTag; keyEnc].
Proof.
  intros Hke.
  change (valueKey false isTag keyEnc tablesKey)
    with (join [58%N] [VALUE_NON_AUTO_PREFIX; kindOf isTag; keyEnc]).
  apply split_join; [done|].
  repeat (apply Forall_cons; split);
    first [done | apply prefixes_noSep | apply kindOf_noSep].
Qed.

Lemma kindOf_inj isTag1 isTag2 : kindOf isTag1 = kindOf isTag2 → isTag1 = isTag2.
Proof. by destruct isTag1, isTag2. Qed.

Lemma digestIf_noColon auto tables tablesKey :
  digestIf auto tables = Ok tablesKey → noSep 58 (default [] tablesKey).
Proof.
  unfold digestIf. destruct auto; [|intros [= <-]; constructor].
  destruct (makeTablesKey tables) as [tk|] eqn:Htk; [|done].
  intros [= <-]. by eapply makeTablesKey_noColon.
Qed.

Lemma parseIndexKey_indexKeyOf tableEnc tablesKey isTag keyEnc :
  noSep 58 tableEnc → noSep 58 tablesKey → noSep 58 keyEnc →
  parseIndexKey (indexKeyOf tableEnc tablesKey isTag keyEnc) =
  if truthy tableEnc && truthy tablesKey && truthy keyEnc
  then Some (mkParsed tableEnc tablesKey isTag keyEnc)
  else None.
Proof.
  intros Hte Htk Hke. unfold parseIndexKey.
  rewrite indexKeyOf_split by done.
  cbn [length Nat.eqb negb nth drop skipn].
  rewrite bool_decide_eq_true_2 by done. cbn [negb].
  destruct tableEnc as [|c1 te]; [done|].
  destruct tablesKey as [|c2 tk]; [done|].
  destruct keyEnc as [|c3 ke]; [done|].
  by destruct isTag.
Qed.

(** X4: the storage key of an entry identifies the entry: two stores or
    lookups address the same slot only when they agree on
    auto-invalidation, on the kind, on the encoded fingerprint and on the
    digest; and a value key is never an index key or a tag-map key. *)
Theorem valueKey_identifies_slot key1 key2 keyEnc1 keyEnc2
    auto1 auto2 tables1 tables2 tablesKey1 tablesKey2 isTag1 isTag2 :
  encode key1 = Ok keyEnc1 → encode key2 = Ok keyEnc2 →
  digestIf auto1 tables1 = Ok tablesKey1 →
  digestIf auto2 tables2 = Ok tablesKey2 →
  (valueKey auto1 isTag1 keyEnc1 tablesKey1
     = valueKey auto2 isTag2 keyEnc2 tablesKey2 →
   auto1 = auto2 ∧ isTag1 = isTag2 ∧ keyEnc1 = keyEnc2 ∧
   tablesKey1 = tablesKey2) ∧
  (∀ tagEnc, valueKey auto1 isTag1 keyEnc1 tablesKey1 ≠ tagMapKey tagEnc) ∧
  (∀ table tablesKey isTag keyEnc,
     indexKey table tablesKey isTag keyEnc
       ≠ Ok (valueKey auto1 isTag1 keyEnc1 tablesKey1)).
Proof.
  intros He1 He2 Hd1 Hd2.
  pose proof (encode_noColon _ _ He1) as Hke1.
  pose proof (encode_noColon _ _ He2) as Hke2.
  pose proof (digestIf_noColon _ _ _ Hd1) as Htk1.
  pose proof (digestIf_noColon _ _ _ Hd2) as Htk2.
  split; [|split].
  - intros Heq. apply (f_equal (split 58)) in Heq. revert Heq.
    unfold digestIf in Hd1, Hd2. destruct auto1, auto2.
    + destruct (makeTablesKey tables1) as [tk1|]; [|done].
      destruct (makeTablesKey tables2) as [tk2|]; [|done].
      injection Hd1 as <-. injection Hd2 as <-. cbn in Htk1, Htk2.
      rewrite !valueKey_auto_split by done.
      intros [= -> ->%kindOf_inj ->]. done.
    + destruct (makeTablesKey tables1) as [tk1|]; [|done].
      injection Hd1 as <-. cbn in Htk1.
      rewrite valueKey_auto_split, valueKey_nonauto_split by done.
      intros [=].
    + destruct (makeTablesKey tables2) as [tk2|]; [|done].
      injection Hd2 as <-. cbn in Htk2.
      rewrite valueKey_auto_split, valueKey_nonauto_split by done.
      intros [=].
    + injection Hd1 as <-. injection Hd2 as <-.
      rewrite !valueKey_nonauto_split by done.
      intros [= ->%kindOf_inj ->]. done.
  - intros tagEnc. unfold valueKey, tagMapKey.
    destruct auto1; cbn; intros [=].
  - intros table tablesKey isTag keyEnc. unfold indexKey, valueKey.
    destruct (encode table); [|done]. cbn.
    destruct auto1; cbn; intros [=].
Qed.

(** X5: an index key built by [indexKey] parses back into its parts when
    the encoded table name, the digest and the encoded fingerprint are not
    empty, and does not parse at all when one of them is empty: the index
    record of an entry stored under the empty fingerprint is never read
    back. *)
Theorem parseIndexKey_indexKey table tableEnc tables tablesKey isTag
    key keyEnc :
  encode table = Ok tableEnc →
  makeTablesKey tables = Ok tablesKey →
  encode key = Ok keyEnc →
  ∃ built,
    indexKey table tablesKey isTag keyEnc = Ok built ∧
    parseIndexKey built =
      if truthy tableEnc && truthy tablesKey && truthy keyEnc
      then Some (mkParsed tableEnc tablesKey isTag keyEnc)
      else None.
Proof.
  intros Hte Htk Hke. exists (indexKeyOf tableEnc tablesKey isTag keyEnc).
  split; [by rewrite indexKey_indexKeyOf, Hte|].
  apply parseIndexKey_indexKeyOf;
    [by eapply encode_noColon | by eapply makeTablesKey_noColon
    | by eapply encode_noColon].
Qed.

(** X3: [encode] is injective on JavaScript strings, and only the empty
    string encodes to the empty token: distinct fingerprints, tags and
    table names get distinct tokens. *)
Theorem encode_injective s1 s2 e :
  inRange s1 → inRange s2 →
  encode s1 = Ok e → encode s2 = Ok e →
  s1 = s2 ∧ (e = [] ↔ s1 = []).
Proof.
  intros Hr1 Hr2 He1 He2.
  pose proof (encode_Ok_decode _ _ Hr1 He1) as Hd1.
  pose proof (encode_Ok_decode _ _ Hr2 He2) as Hd2.
  split; [congruence|]. split.
  - intros ->. by apply encode_nil_inv.
  - intros ->. by injection He1 as <-.
Qed.

End KeyShapeFacts.

(** ** The sweep by tables *)

Module SweepFacts.
Import Js Uri Utils Storage UnstorageCache Spec SpecMore.
Import UriFacts ResultFacts DigestFacts StorageFacts KeyFacts CacheFacts
       KeyShapeFacts.

Section WithPayload.
Context {V : Type}.
Implicit Types (m : gmap jsstring (StorageValue V)) (b : Storage.t V).

Lemma stored_keys_elem m k :
  k ∈ map fst (map_to_list m) ↔ is_Some (m !! k).
Proof.
  change (map fst (map_to_list m)) with ((map_to_list m).*1).
  rewrite list_elem_of_fmap. split.
  - intros ([k' v] & -> & Hin%elem_of_map_to_list). by exists v.
  - intros [v Hv]. exists (k, v). split; [done|].
    by apply elem_of_map_to_list.
Qed.

Lemma getKeys_elem prefix b k :
  k ∈ match (getKeys prefix b).1 with Ok keys => keys | Throw _ => [] end ↔
  is_Some (items b !! k) ∧ startsWith prefix k = true.
Proof.
  cbn. rewrite list_elem_of_filter, stored_keys_elem. tauto.
Qed.

(** The first loop with encodable tables: it gathers exactly the stored
    keys under the prefix of one of the tables. *)
Lemma collectIndexKeys_exact tables encoded indexKeys b :
  mapR encode tables = Ok encoded →
  ∃ keys j,
    collectIndexKeys tables indexKeys b = (Ok keys, Storage.mk (items b) j) ∧
    ∀ k, k ∈ keys ↔
         k ∈ indexKeys ∨
         (is_Some (items b !! k) ∧
          ∃ tableEnc, tableEnc ∈ encoded ∧
                      startsWith (tablePrefix tableEnc) k = true).
Proof.
  revert encoded indexKeys b.
  induction tables as [|table tables IH]; intros encoded indexKeys [m j] Henc.
  - injection Henc as <-. exists indexKeys, j. split; [done|].
    intros k. split; [by left|]. intros [?|[_ (te & []%elem_of_nil & _)]]. done.
  - cbn in Henc. destruct (encode table) as [tableEnc|] eqn:Ht; [|done].
    cbn in Henc. destruct (mapR encode tables) as [rest|] eqn:Hrest; [|done].
    injection Henc as <-.
    cbn [collectIndexKeys]. unfold bind at 1. unfold lift at 1. rewrite Ht.
    unfold bind at 1. cbn [getKeys record items journal].
    match goal with
    | |- context [collectIndexKeys tables ?acc ?b1] =>
        destruct (IH rest acc b1 eq_refl) as (keys & j' & Hrun & Hkeys)
    end.
    exists keys, j'. split; [exact Hrun|].
    intros k. rewrite Hkeys. cbn [items].
    rewrite foldl_setAdd_elem, list_elem_of_filter, stored_keys_elem.
    fold (tablePrefix tableEnc). split.
    + intros [[?|[Hpre Hk]]|[Hk (te & Hte & Hpre)]]; [by left|right..].
      * split; [done|]. exists tableEnc. split; [left | done].
      * split; [done|]. exists te. split; [by right | done].
    + intros [?|[Hk (te & Hte & Hpre)]]; [by left; left|].
      apply elem_of_cons in Hte as [->|Hte].
      * left. right. done.
      * right. split; [done|]. by exists te.
Qed.

Lemma collectIndexKeys_throw tables e indexKeys b :
  mapR encode tables = Throw e →
  ∃ e' j, collectIndexKeys tables indexKeys b
            = (Throw e', Storage.mk (items b) j).
Proof.
  revert e indexKeys b.
  induction tables as [|table tables IH]; intros e indexKeys [m j] Henc;
    [done|].
  cbn in Henc. cbn [collectIndexKeys]. unfold bind at 1. unfold lift at 1.
  destruct (encode table) as [tableEnc|e0] eqn:Ht; [|by exists e0, j].
  cbn in Henc. destruct (mapR encode tables) as [rest|e1] eqn:Hrest; [done|].
  unfold bind at 1. cbn [getKeys record items journal].
  match goal with
  | |- context [collectIndexKeys tables ?acc ?b1] =>
      destruct (IH e1 acc b1 eq_refl) as (e' & j' & Hrun)
  end.
  exists e', j'. exact Hrun.
Qed.

Lemma collectValueKeys_iff indexKeys valueKeys k :
  k ∈ collectValueKeys indexKeys valueKeys ↔
  k ∈ valueKeys ∨
  ∃ indexKey' parsed,
    indexKey' ∈ indexKeys ∧ parseIndexKey indexKey' = Some parsed ∧
    k = valueKey true (Utils.isTag parsed) (Utils.keyEnc parsed)
                 (Some (Utils.tablesKey parsed)).
Proof.
  revert valueKeys.
  induction indexKeys as [|ik iks IH]; intros valueKeys;
    cbn [collectValueKeys].
  - split; [by left|]. intros [?|(? & ? & []%elem_of_nil & _)]. done.
  - destruct (parseIndexKey ik) as [parsed|] eqn:Hparse; rewrite IH.
    + rewrite setAdd_elem. split.
      * intros [[?| ->]|(ik' & p & Hin & Hp & ->)]; [by left|right..].
        -- exists ik, parsed. split; [left | done].
        -- exists ik', p. split; [by right | done].
      * intros [?|(ik' & p & Hin & Hp & ->)]; [by left; left|].
        apply elem_of_cons in Hin as [->|Hin].
        -- left. right. congruence.
        -- right. by exists ik', p.
    + split.
      * intros [?|(ik' & p & Hin & Hp & ->)]; [by left|right].
        exists ik', p. split; [by right | done].
      * intros [?|(ik' & p & Hin & Hp & ->)]; [by left|].
        apply elem_of_cons in Hin as [->|Hin]; [congruence|].
        right. by exists ik', p.
Qed.

(** The sweep with encodable tables removes the stored keys under the
    prefixes of the tables and the value keys parsed from them. *)
Lemma invalidateTables_run tables encoded b :
  mapR encode tables = Ok encoded →
  ∃ keys j,
    invalidateTables tables b =
      (Ok (), Storage.mk
                (removeAll (keys ++ collectValueKeys keys []) (items b)) j) ∧
    ∀ k, k ∈ keys ↔
         is_Some (items b !! k) ∧
         ∃ tableEnc, tableEnc ∈ encoded ∧
                     startsWith (tablePrefix tableEnc) k = true.
Proof.
  intros Henc. unfold invalidateTables.
  destruct tables as [|t ts].
  { injection Henc as <-. exists [], (journal b). destruct b as [m j].
    split; [done|]. intros k. split; [by intros []%elem_of_nil|].
    intros [_ (te & []%elem_of_nil & _)]. }
  destruct (collectIndexKeys_exact (t :: ts) encoded [] b Henc)
    as (keys & j & Hrun & Hkeys).
  unfold bind. rewrite Hrun.
  assert (Hiff : ∀ k, k ∈ keys ↔
            is_Some (items b !! k) ∧
            ∃ tableEnc, tableEnc ∈ encoded ∧
                        startsWith (tablePrefix tableEnc) k = true).
  { intros k. rewrite Hkeys. split; [|by right].
    by intros [[]%elem_of_nil|?]. }
  destruct keys as [|k0 keys].
  - exists [], j. split; [done|]. exact Hiff.
  - rewrite forEach_removeItem. cbn [items journal]. eauto.
Qed.

Lemma invalidateTables_throw_run tables e b :
  mapR encode tables = Throw e →
  ∃ e' j, invalidateTables tables b = (Throw e', Storage.mk (items b) j).
Proof.
  intros Henc. unfold invalidateTables.
  destruct tables as [|t ts]; [done|].
  destruct (collectIndexKeys_throw (t :: ts) e [] b Henc) as (e' & j & Hrun).
  unfold bind. rewrite Hrun. eauto.
Qed.

Lemma invalidateTables_throw tables e b :
  mapR encode tables = Throw e →
  items (invalidateTables tables b).2 = items b.
Proof.
  intros Henc. unfold invalidateTables.
  destruct tables as [|t ts]; [done|].
  destruct (collectIndexKeys_throw (t :: ts) e [] b Henc) as (e' & j & Hrun).
  unfold bind. by rewrite Hrun.
Qed.

Lemma startsWith_sep a a' x y :
  noSep 58 a → noSep 58 a' →
  startsWith (a ++ 58%N :: x) (a' ++ 58%N :: y) = true →
  a = a' ∧ startsWith x y = true.
Proof.
  intros Ha. revert a'. induction Ha as [|c a Hc Ha IH]; intros a' Ha'.
  - destruct Ha' as [|c' a' Hc' Ha']; cbn [app startsWith].
    + by intros [_ ?]%andb_true_iff.
    + intros [Heq%N.eqb_eq _]%andb_true_iff. congruence.
  - destruct Ha' as [|c' a' Hc' Ha']; cbn [app startsWith].
    + intros [Heq%N.eqb_eq _]%andb_true_iff. congruence.
    + intros [->%N.eqb_eq Hrest]%andb_true_iff.
      destruct (IH a' Ha' Hrest) as [-> ?]. done.
Qed.

Lemma startsWith_app_both p x y :
  startsWith (p ++ x) (p ++ y) = startsWith x y.
Proof.
  induction p as [|c p IH]; [done|]. cbn [app startsWith].
  by rewrite N.eqb_refl, IH.
Qed.

(** A key built as an index key lies under the prefix of a table exactly
    when it was built for that table. *)
Lemma startsWith_tablePrefix tableEnc tableEnc' tablesKey isTag keyEnc :
  noSep 58 tableEnc → noSep 58 tableEnc' →
  startsWith (tablePrefix tableEnc)
             (indexKeyOf tableEnc' tablesKey isTag keyEnc) = true ↔
  tableEnc = tableEnc'.
Proof.
  intros Hte Hte'.
  change (tablePrefix tableEnc)
    with (INDEX_PREFIX ++ 58%N :: (tableEnc ++ 58%N :: [])).
  change (indexKeyOf tableEnc' tablesKey isTag keyEnc)
    with (INDEX_PREFIX ++ 58%N ::
            (tableEnc' ++ 58%N ::
               (tablesKey ++ str ":" ++ kindOf isTag ++ str ":" ++ keyEnc))).
  split.
  - intros [_ H]%startsWith_sep; [|apply prefixes_noSep..].
    by apply startsWith_sep in H as [-> _].
  - intros ->. rewrite startsWith_app_both. cbn [startsWith].
    rewrite N.eqb_refl, startsWith_app_both. cbn [startsWith].
    by rewrite N.eqb_refl.
Qed.

Lemma tablePrefix_not_valueKey tableEnc isTag keyEnc tablesKey :
  startsWith (tablePrefix tableEnc)
             (valueKey true isTag keyEnc (Some tablesKey)) = false.
Proof.
  destruct (startsWith _ _) eqn:Hpre; [|done]. exfalso. revert Hpre.
  change (tablePrefix tableEnc)
    with (INDEX_PREFIX ++ 58%N :: (tableEnc ++ 58%N :: [])).
  change (valueKey true isTag keyEnc (Some tablesKey))
    with (VALUE_AUTO_PREFIX ++ 58%N ::
            (tablesKey ++ str ":" ++ kindOf isTag ++ str ":" ++ keyEnc)).
  intros [Heq _]%startsWith_sep; [|apply prefixes_noSep..].
  by vm_compute in Heq.
Qed.

(** A value key is among the keys the sweep removes only through an
    index record stored under one of the swept tables that names its
    digest, kind and fingerprint, none of them empty. *)
Lemma swept_value_inv encoded keys b isTag keyEnc tablesKey :
  Forall (noSep 58) encoded →
  noSep 58 tablesKey → noSep 58 keyEnc →
  (∀ k, k ∈ keys ↔
        is_Some (items b !! k) ∧
        ∃ tableEnc, tableEnc ∈ encoded ∧
                    startsWith (tablePrefix tableEnc) k = true) →
  valueKey true isTag keyEnc (Some tablesKey)
    ∈ keys ++ collectValueKeys keys [] →
  ∃ tableEnc,
    tableEnc ∈ encoded ∧
    is_Some (items b !! indexKeyOf tableEnc tablesKey isTag keyEnc) ∧
    tableEnc ≠ [] ∧ tablesKey ≠ [] ∧ keyEnc ≠ [].
Proof.
  intros Henc Htk Hke Hkeys [Hin|Hin]%elem_of_app.
  - apply Hkeys in Hin as [_ (te & _ & Hpre)].
    by rewrite tablePrefix_not_valueKey in Hpre.
  - apply collectValueKeys_iff in Hin
      as [[]%elem_of_nil|(ik & [pte ptk ptag pke] & Hik & Hp & Heq)].
    apply parseIndexKey_Some in Hp
      as (kind & Hsplit & Hte & Htk' & Hke' & Hkind).
    cbn [Utils.tableEnc Utils.tablesKey Utils.keyEnc Utils.isTag] in *.
    pose proof (split_noSep 58 ik) as Hparts. rewrite Hsplit in Hparts.
    apply Forall_cons in Hparts as [_ Hparts].
    apply Forall_cons in Hparts as [Hpte Hparts].
    apply Forall_cons in Hparts as [Hptk Hparts].
    apply Forall_cons in Hparts as [_ Hparts].
    apply Forall_cons in Hparts as [Hpke _].
    apply (f_equal (split 58)) in Heq.
    rewrite !valueKey_auto_split in Heq by done.
    injection Heq as -> ->%kindOf_inj ->.
    assert (Hik_eq : ik = indexKeyOf pte ptk ptag pke).
    { rewrite <- (join_split 58 ik), Hsplit.
      by destruct Hkind as [[-> ->]|[-> ->]]. }
    subst ik. apply Hkeys in Hik as [Hsome (te & Hte_in & Hpre)].
    apply startsWith_tablePrefix in Hpre as ->;
      [|by eapply Forall_forall in Henc|done].
    by exists pte.
Qed.

(** The converse: a stored index record under a swept table whose parts
    are not empty is removed together with the value key it names. *)
Lemma swept_indexed (encoded keys : list jsstring) b tableEnc isTag keyEnc
    tablesKey :
  noSep 58 tableEnc → noSep 58 tablesKey → noSep 58 keyEnc →
  tableEnc ≠ [] → tablesKey ≠ [] → keyEnc ≠ [] →
  (∀ k, k ∈ keys ↔
        is_Some (items b !! k) ∧
        ∃ tableEnc, tableEnc ∈ encoded ∧
                    startsWith (tablePrefix tableEnc) k = true) →
  tableEnc ∈ encoded →
  is_Some (items b !! indexKeyOf tableEnc tablesKey isTag keyEnc) →
  indexKeyOf tableEnc tablesKey isTag keyEnc
    ∈ keys ++ collectValueKeys keys [] ∧
  valueKey true isTag keyEnc (Some tablesKey)
    ∈ keys ++ collectValueKeys keys [].
Proof.
  intros Hte Htk Hke Hte0 Htk0 Hke0 Hkeys Hin Hsome.
  assert (Hik : indexKeyOf tableEnc tablesKey isTag keyEnc ∈ keys).
  { apply Hkeys. split; [done|]. exists tableEnc. split; [done|].
    by apply startsWith_tablePrefix. }
  split; apply elem_of_app; [by left|right].
  apply collectValueKeys_iff. right.
  exists (indexKeyOf tableEnc tablesKey isTag keyEnc),
         (mkParsed tableEnc tablesKey isTag keyEnc).
  split; [done|]. split; [|done].
  rewrite parseIndexKey_indexKeyOf by done.
  by destruct tableEnc, tablesKey, keyEnc.
Qed.

Lemma join_eq_nil sep parts p :
  join [sep] parts = [] → p ∈ parts → p = [].
Proof.
  induction parts as [|q parts IH]; [by intros _ []%elem_of_nil|].
  destruct parts as [|q' parts].
  - cbn. by intros -> ->%list_elem_of_singleton.
  - change (join [sep] (q :: q' :: parts))
      with (q ++ sep :: join [sep] (q' :: parts)).
    by intros [_ ?]%app_eq_nil.
Qed.

(** The digest of a list that holds a non-empty name is not empty. *)
Lemma makeTablesKey_nonempty tables tablesKey table :
  makeTablesKey tables = Ok tablesKey →
  table ∈ tables → table ≠ [] → tablesKey ≠ [].
Proof.
  intros Hkey Hin Hne ->.
  assert (Htables : tables ≠ []) by (intros ->; by apply elem_of_nil in Hin).
  destruct (makeTablesKey_sorted _ _ Htables Hkey) as (encoded & Henc & Hsplit).
  destruct (mapR_Ok_elem _ _ _ table Henc Hin) as (te & Hte & Hte_in).
  assert (Hin' : te ∈ sort encoded).
  { by rewrite (merge_sort_Permutation _ encoded : sort encoded ≡ₚ encoded). }
  rewrite <- Hsplit in Hin'. cbn in Hin'.
  apply list_elem_of_singleton in Hin' as ->.
  by apply encode_nil_inv in Hte.
Qed.

(** X6: a sweep by tables removes every index record stored under one of
    the swept tables for an entry, and with it the value record of the
    entry, when the table name and the fingerprint are not empty. *)
Theorem invalidateTables_removes_indexed swept encoded table key keyEnc
    tables tablesKey isTag built b :
  mapR encode swept = Ok encoded →
  table ∈ swept → table ≠ [] →
  encode key = Ok keyEnc → key ≠ [] →
  makeTablesKey tables = Ok tablesKey → tablesKey ≠ [] →
  indexKey table tablesKey isTag keyEnc = Ok built →
  is_Some (items b !! built) →
  ∃ b',
    invalidateTables swept b = (Ok (), b') ∧
    items b' !! built = None ∧
    items b' !! valueKey true isTag keyEnc (Some tablesKey) = None.
Proof.
  intros Henc Hin Hne Hkey Hkne Hdig Hdne Hbuilt Hsome.
  destruct (invalidateTables_run swept encoded b Henc)
    as (keys & j & Hrun & Hkeys).
  destruct (mapR_Ok_elem _ _ _ table Henc Hin) as (te & Hte & Hte_in).
  rewrite indexKey_indexKeyOf, Hte in Hbuilt. injection Hbuilt as <-.
  destruct (swept_indexed encoded keys b te isTag keyEnc tablesKey)
    as [Hik Hvk]; try done.
  - by eapply encode_noColon.
  - by eapply makeTablesKey_noColon.
  - by eapply encode_noColon.
  - intros ->. by apply encode_nil_inv in Hte.
  - intros ->. by apply encode_nil_inv in Hkey.
  - eexists. split; [exact Hrun|]. cbn [items].
    split; by apply removeAll_lookup_in.
Qed.

(** X7: the sweep leaves the value record of an entry in place unless an
    index record for the entry is stored under one of the swept tables;
    an entry whose fingerprint or digest is empty is left in place
    whatever is stored. *)
Theorem invalidateTables_keeps_unindexed swept key keyEnc tables tablesKey
    isTag b :
  encode key = Ok keyEnc →
  makeTablesKey tables = Ok tablesKey →
  (keyEnc = [] ∨ tablesKey = [] ∨
   ∀ table built,
     table ∈ swept → indexKey table tablesKey isTag keyEnc = Ok built →
     items b !! built = None) →
  items (invalidateTables swept b).2
    !! valueKey true isTag keyEnc (Some tablesKey)
  = items b !! valueKey true isTag keyEnc (Some tablesKey).
Proof.
  intros Hkey Hdig Hcase.
  destruct (mapR encode swept) as [encoded|e] eqn:Henc;
    [|by rewrite (invalidateTables_throw swept e)].
  destruct (invalidateTables_run swept encoded b Henc)
    as (keys & j & Hrun & Hkeys).
  rewrite Hrun. cbn [snd items]. apply removeAll_lookup_notin.
  intros Hin.
  apply (swept_value_inv encoded keys b) in Hin
    as (te & Hte_in & Hsome & Hte0 & Htk0 & Hke0);
    [|by eapply mapR_encode_noSep; [right|]
     |by eapply makeTablesKey_noColon|by eapply encode_noColon|done].
  destruct Hcase as [->|[->|Hnone]]; [done..|].
  destruct (mapR_Ok_elem_inv _ _ _ _ Henc Hte_in) as (table & Htable & Hte).
  specialize (Hnone table (indexKeyOf te tablesKey isTag keyEnc) Htable).
  rewrite indexKey_indexKeyOf, Hte in Hnone.
  rewrite Hnone in Hsome by done. by destruct Hsome.
Qed.

(** Keys outside the index and the auto-invalidated value name spaces
    are out of the sweep's reach. *)
Lemma invalidateTables_far swept b a rest :
  noSep 58 a → a ≠ INDEX_PREFIX → a ≠ VALUE_AUTO_PREFIX →
  items (invalidateTables swept b).2 !! (a ++ 58%N :: rest)
  = items b !! (a ++ 58%N :: rest).
Proof.
  intros Ha Hidx Hval. apply invalidateTables_untouched.
  - intros table te _ _.
    destruct (startsWith _ _) eqn:Hpre; [|done]. exfalso. revert Hpre.
    change (INDEX_PREFIX ++ str ":" ++ te ++ str ":")
      with (INDEX_PREFIX ++ 58%N :: (te ++ str ":")).
    intros [Heq _]%startsWith_sep; [done|apply prefixes_noSep|done].
  - destruct (startsWith _ _) eqn:Hpre; [|done]. exfalso. revert Hpre.
    change (VALUE_AUTO_PREFIX ++ str ":")
      with (VALUE_AUTO_PREFIX ++ 58%N :: []).
    intros [Heq _]%startsWith_sep; [done|apply prefixes_noSep|done].
Qed.

Lemma invalidateTables_tagMapKey swept b tagEnc :
  items (invalidateTables swept b).2 !! tagMapKey tagEnc
  = items b !! tagMapKey tagEnc.
Proof.
  apply (invalidateTables_far swept b TAG_MAP_PREFIX);
    [apply prefixes_noSep|done..].
Qed.

(** X8: the sweep never removes the record of an entry stored without
    auto-invalidation, a tag-map record, or an index record that belongs
    to a table outside the swept list. *)
Theorem invalidateTables_spares swept b :
  (∀ isTag keyEnc tablesKey,
     items (invalidateTables swept b).2
       !! valueKey false isTag keyEnc tablesKey
     = items b !! valueKey false isTag keyEnc tablesKey) ∧
  (∀ tagEnc,
     items (invalidateTables swept b).2 !! tagMapKey tagEnc
     = items b !! tagMapKey tagEnc) ∧
  (∀ table tablesKey isTag keyEnc built,
     inRange table → Forall inRange swept → table ∉ swept →
     indexKey table tablesKey isTag keyEnc = Ok built →
     items (invalidateTables swept b).2 !! built = items b !! built).
Proof.
  split; [|split].
  - intros isTag keyEnc tablesKey.
    apply (invalidateTables_far swept b VALUE_NON_AUTO_PREFIX);
      [apply prefixes_noSep|done..].
  - intros tagEnc.
    apply (invalidateTables_far swept b TAG_MAP_PREFIX);
      [apply prefixes_noSep|done..].
  - intros table tablesKey isTag keyEnc built Hrange Hranges Hnotin Hbuilt.
    rewrite indexKey_indexKeyOf in Hbuilt.
    destruct (encode table) as [tableEnc|] eqn:Hte; [|done].
    injection Hbuilt as <-.
    apply invalidateTables_untouched.
    + intros other te Hin Hother_enc.
      destruct (startsWith _ _) eqn:Hpre; [|done]. exfalso.
      fold (tablePrefix te) in Hpre.
      apply startsWith_tablePrefix in Hpre as ->;
        [|by eapply encode_noColon..].
      apply Hnotin.
      assert (Hother : inRange other) by by eapply Forall_forall in Hranges.
      apply encode_Ok_decode in Hother_enc; [|done].
      apply encode_Ok_decode in Hte; [|done]. congruence.
    + destruct (startsWith _ _) eqn:Hpre; [|done]. exfalso. revert Hpre.
      change (VALUE_AUTO_PREFIX ++ str ":")
        with (VALUE_AUTO_PREFIX ++ 58%N :: []).
      change (indexKeyOf tableEnc tablesKey isTag keyEnc)
        with (INDEX_PREFIX ++ 58%N ::
                (tableEnc ++ str ":" ++ tablesKey ++ str ":"
                   ++ kindOf isTag ++ str ":" ++ keyEnc)).
      intros [Heq _]%startsWith_sep; [done|apply prefixes_noSep..].
Qed.

(** X9: sweeping the same tables a second time changes nothing: what the
    first sweep left is left by the second. *)
Theorem invalidateTables_idempotent swept b :
  items (invalidateTables swept (invalidateTables swept b).2).2
  = items (invalidateTables swept b).2.
Proof.
  destruct (mapR encode swept) as [encoded|e] eqn:Henc;
    [|by rewrite !(invalidateTables_throw swept e)].
  destruct (invalidateTables_run swept encoded b Henc)
    as (keys & j & Hrun & Hkeys).
  rewrite Hrun. cbn [snd].
  destruct (invalidateTables_run swept encoded
              (Storage.mk (removeAll (keys ++ collectValueKeys keys [])
                                     (items b)) j) Henc)
    as (keys' & j' & Hrun' & Hkeys').
  rewrite Hrun'. cbn [snd items] in *.
  destruct keys' as [|k keys']; [done|].
  exfalso.
  assert (Hk : k ∈ k :: keys') by left.
  apply Hkeys' in Hk as [[v Hv] Hpre].
  assert (Hv' : items b !! k = Some v) by by eapply removeAll_lookup_Some.
  assert (Hin : k ∈ keys) by (apply Hkeys; eauto).
  rewrite removeAll_lookup_in in Hv; [done|].
  apply elem_of_app. by left.
Qed.

End WithPayload.
End SweepFacts.

(** ** Stores *)

Module StoreFacts.
Import Js Uri Utils Storage UnstorageCache Spec SpecMore.
Import UriFacts ResultFacts DigestFacts ExpiryFacts StorageFacts KeyFacts
       CacheFacts KeyShapeFacts.

Section WithPayload.
Context {V : Type}.
Implicit Types (m : gmap jsstring (StorageValue V)) (b : Storage.t V).

(** What a store that is alive does to the backend: the optional read of
    the slot, then the writes of [putWrites], each with the TTL hint. *)
Lemma put_live_run self now key response tables isTag config
    keyEnc tablesKey expiry b :
  encode key = Ok keyEnc →
  digestIf (0 <? length tables)%nat tables = Ok tablesKey →
  putExpiry self now config (items b)
    (valueKey (0 <? length tables)%nat isTag keyEnc tablesKey) = Some expiry →
  (now < expiry)%Z →
  let auto := (0 <? length tables)%nat in
  let vk := valueKey auto isTag keyEnc tablesKey in
  let digest := default [] tablesKey in
  ∃ indexKeys,
    mapR (λ table, indexKey table digest isTag keyEnc)
         (if truthy digest then tables else []) = Ok indexKeys ∧
    let writes :=
      putWrites vk keyEnc isTag
        (CacheEntry.mk response (Some expiry)
           (if auto then Some tables else None))
        expiry digest indexKeys in
    put self now key response tables isTag config b =
    (Ok (),
     Storage.mk (setAll writes (items b))
       (journal b
        ++ (if keepTtlRequested config then [GetItem vk] else [])
        ++ map (λ w, SetItem w.1 w.2
                       (ttlOptions (Some (ttlSecondsOf now expiry))))
               writes)).
Proof.
  intros Henc Hdig Hexp Hlive.
  rewrite (put_run _ _ _ _ _ _ _ keyEnc tablesKey) by done.
  cbv zeta. rewrite Hexp.
  destruct (Z.leb_spec expiry now); [lia|].
  destruct (digestIf_encoded _ _ Hdig) as [encoded Hencoded].
  unfold digestIf in Hdig.
  remember (0 <? length tables)%nat as auto eqn:Heqauto.
  set (vk := valueKey auto isTag keyEnc tablesKey).
  assert (Hb1 : ∀ calls,
    journal (if keepTtlRequested config then record (GetItem vk) b else b)
      ++ calls
    = journal b ++ (if keepTtlRequested config then [GetItem vk] else [])
      ++ calls).
  { intros calls. destruct (keepTtlRequested config); [|done].
    cbn. by rewrite <- app_assoc. }
  assert (Hitems :
    items (if keepTtlRequested config then record (GetItem vk) b else b)
    = items b) by by destruct (keepTtlRequested config).
  destruct auto.
  - destruct (makeTablesKey tables) as [digest|]; [|done].
    injection Hdig as <-. cbn [default from_option].
    destruct digest as [|c k]; cbn [truthy].
    + exists []. split; [done|]. rewrite setMany_run, Hb1, Hitems.
      unfold putWrites. by destruct isTag.
    + destruct (mapR_indexKey tables (c :: k) isTag keyEnc _ Hencoded)
        as [indexKeys Hkeys].
      exists indexKeys. split; [done|].
      unfold bind at 1. unfold lift at 1. rewrite Hkeys.
      rewrite setMany_run, Hb1, Hitems.
      unfold putWrites. destruct isTag; cbn [app default from_option];
        rewrite ?app_nil_r; reflexivity.
  - injection Hdig as <-. cbn [default from_option truthy].
    exists []. split; [done|]. rewrite setMany_run, Hb1, Hitems.
    unfold putWrites. by destruct isTag.
Qed.

Lemma putWrites_keys vk keyEnc isTag (entry : CacheEntry.t V) expiry digest
    indexKeys k :
  k ∈ (putWrites vk keyEnc isTag entry expiry digest indexKeys).*1 ↔
  k = vk ∨ k ∈ indexKeys ∨ (isTag = true ∧ k = tagMapKey keyEnc).
Proof.
  unfold putWrites. rewrite fmap_cons, fmap_app, elem_of_cons, elem_of_app.
  rewrite <- list_fmap_compose.
  replace (fmap (fst ∘ (λ indexKey, (indexKey, VNumber (V:=V) expiry)))
                indexKeys) with indexKeys
    by (induction indexKeys; cbn; congruence).
  destruct isTag; cbn [fmap list_fmap fst].
  - rewrite list_elem_of_singleton. intuition congruence.
  - rewrite elem_of_nil. intuition congruence.
Qed.

Lemma setAll_lookup_in writes m k v :
  k ∈ writes.*1 → (∀ v', (k, v') ∈ writes → v' = v) →
  setAll writes m !! k = Some v.
Proof.
  revert m. induction writes as [|[k' v'] writes IH]; intros m Hin Hval.
  { by apply elem_of_nil in Hin. }
  rewrite setAll_cons.
  destruct (decide (k ∈ writes.*1)) as [Hlater|Hlater].
  - apply IH; [done|]. intros v'' ?. apply Hval. by right.
  - rewrite setAll_lookup_notin by done.
    cbn in Hin. apply elem_of_cons in Hin as [->|]; [|done].
    rewrite lookup_insert_eq. f_equal. apply Hval. left.
Qed.


Lemma ttlSecondsOf_bounds now expiry :
  (now < expiry)%Z →
  (1 ≤ ttlSecondsOf now expiry)%Z ∧
  (1000 * (ttlSecondsOf now expiry - 1) < expiry - now
   ≤ 1000 * ttlSecondsOf now expiry)%Z.
Proof. unfold ttlSecondsOf. lia. Qed.

(** The index records of a store that is alive: one per table, holding
    the expiry, when the digest is not empty. *)
Lemma put_live_index self now key response tables isTag config
    keyEnc tablesKey expiry table built b :
  encode key = Ok keyEnc →
  digestIf (0 <? length tables)%nat tables = Ok tablesKey →
  putExpiry self now config (items b)
    (valueKey (0 <? length tables)%nat isTag keyEnc tablesKey) = Some expiry →
  (now < expiry)%Z →
  table ∈ tables → default [] tablesKey ≠ [] →
  indexKey table (default [] tablesKey) isTag keyEnc = Ok built →
  items (put self now key response tables isTag config b).2 !! built
  = Some (VNumber expiry).
Proof.
  intros Henc Hdig Hexp Hlive Hin Hne Hbuilt.
  destruct (put_live_run self now key response tables isTag config
              keyEnc tablesKey expiry b) as (indexKeys & Hkeys & Hrun);
    [done..|].
  cbv zeta in Hrun. rewrite Hrun. cbn [snd items].
  destruct (default [] tablesKey) as [|c d] eqn:Hd; [done|]. cbn [truthy] in *.
  destruct (mapR_Ok_elem _ _ _ table Hkeys Hin) as (ik & Hik & Hik_in).
  cbn beta in Hik. assert (ik = built) as -> by congruence.
  apply setAll_lookup_in.
  - apply putWrites_keys. right. by left.
  - intros v'. unfold putWrites.
    rewrite elem_of_cons, elem_of_app. intros [Heq|[Hmid|Hlast]].
    + injection Heq as Heq _. exfalso.
      by eapply indexKey_ne_valueKey in Hbuilt.
    + apply list_elem_of_fmap in Hmid as (ik' & [= _ ->] & _). done.
    + destruct isTag; [|by apply elem_of_nil in Hlast].
      apply list_elem_of_singleton in Hlast. injection Hlast as Heq _.
      exfalso. by eapply indexKey_ne_tagMapKey in Hbuilt.
Qed.


(** X11: the records of a store that is alive all carry the entry's expiry,
    and every write passes the driver a TTL hint of whole seconds that is at
    least one second, covers the remaining life of the entry, and exceeds
    it by less than a second. *)
Theorem put_ttl_hint self now key response tables isTag config
    keyEnc tablesKey expiry b :
  encode key = Ok keyEnc →
  digestIf (0 <? length tables)%nat tables = Ok tablesKey →
  putExpiry self now config (items b)
    (valueKey (0 <? length tables)%nat isTag keyEnc tablesKey) = Some expiry →
  (now < expiry)%Z →
  ∃ calls,
    journal (put self now key response tables isTag config b).2
      = journal b ++ calls ∧
    (∃ entry ttl,
       SetItem (valueKey (0 <? length tables)%nat isTag keyEnc tablesKey)
               (VEntry entry) ttl ∈ calls) ∧
    ∀ k v ttl,
      SetItem k v ttl ∈ calls →
      (∃ seconds,
         ttl = Some seconds ∧ (1 ≤ seconds)%Z ∧
         (1000 * (seconds - 1) < expiry - now ≤ 1000 * seconds)%Z) ∧
      match v with
      | VEntry entry => CacheEntry.expiresAt entry = Some expiry
      | VNumber n => n = expiry
      | VString _ => True
      end.
Proof.
  intros Henc Hdig Hexp Hlive.
  destruct (put_live_run self now key response tables isTag config
              keyEnc tablesKey expiry b) as (indexKeys & Hkeys & Hrun);
    [done..|].
  cbv zeta in Hrun. rewrite Hrun. cbn [snd journal].
  eexists. split; [reflexivity|]. split.
  - eexists _, _. apply elem_of_app. right.
    unfold putWrites. cbn [map fst snd]. left.
  - intros k v ttl [Hin|Hin]%elem_of_app.
    { destruct (keepTtlRequested config);
        [by apply list_elem_of_singleton in Hin | by apply elem_of_nil in Hin]. }
    change (SetItem k v ttl ∈
              (λ w : jsstring * StorageValue V,
                 SetItem w.1 w.2
                   (ttlOptions (Some (ttlSecondsOf now expiry)))) <$>
              putWrites
                (valueKey (0 <? length tables)%nat isTag keyEnc tablesKey)
                keyEnc isTag
                (CacheEntry.mk response (Some expiry)
                   (if (0 <? length tables)%nat then Some tables else None))
                expiry (default [] tablesKey) indexKeys) in Hin.
    apply list_elem_of_fmap in Hin as ([k' v'] & [= -> -> ->] & Hw).
    cbn [fst snd]. split.
    + pose proof (ttlSecondsOf_bounds now expiry Hlive) as [Hone Hbounds].
      exists (ttlSecondsOf now expiry). split; [|done].
      unfold ttlOptions. destruct (ttlSecondsOf now expiry); [lia|done..].
    + unfold putWrites in Hw.
      apply elem_of_cons in Hw as [[= _ ->]|Hw]; [done|].
      apply elem_of_app in Hw as [Hw|Hw].
      * by apply list_elem_of_fmap in Hw as (ik & [= _ ->] & _).
      * destruct isTag; [|by apply elem_of_nil in Hw].
        by apply list_elem_of_singleton in Hw as [= _ ->].
Qed.

End WithPayload.
End StoreFacts.

(** ** Stores, lookups and invalidations together *)

Module FlowFacts.
Import Js Uri Utils Storage UnstorageCache Spec SpecMore.
Import UriFacts ResultFacts DigestFacts ExpiryFacts StorageFacts KeyFacts
       CacheFacts KeyShapeFacts SweepFacts StoreFacts.

Section WithPayload.
Context {V : Type}.
Implicit Types (m : gmap jsstring (StorageValue V)) (b : Storage.t V).

(** A notification without tags is the sweep of its tables; one with a
    single tag and no table is the invalidation of the tag. *)
Lemma onMutate_tables_only params b :
  normalizeTags (MutationOption.tags params) = [] →
  onMutate params b =
  invalidateTables
    (arrayFromSet (normalizeTables (MutationOption.tables params))) b.
Proof.
  intros Htags. unfold onMutate. rewrite Htags.
  cbn [invalidateTags promiseAll]. unfold ret.
  by destruct (invalidateTables _ b) as [[[]|e] b'].
Qed.


Lemma arrayFromSet_elem l x : x ∈ arrayFromSet l ↔ x ∈ l.
Proof.
  unfold arrayFromSet, newSet. rewrite foldl_setAdd_elem, elem_of_nil. tauto.
Qed.

Lemma mapR_encode_arrayFromSet l encoded :
  mapR encode l = Ok encoded →
  ∃ encoded', mapR encode (arrayFromSet l) = Ok encoded'.
Proof.
  intros Henc. apply mapR_all_Ok. intros x Hx.
  apply (proj1 (arrayFromSet_elem _ _)) in Hx.
  destruct (mapR_Ok_elem _ _ _ x Henc Hx) as (y & Hy & _). eauto.
Qed.




Lemma digestIf_nonempty tables tablesKey :
  tables ≠ [] → makeTablesKey tables = Ok tablesKey →
  digestIf (0 <? length tables)%nat tables = Ok (Some tablesKey) ∧
  (0 <? length tables)%nat = true.
Proof.
  intros Hne Hkey. destruct tables as [|t ts]; [done|].
  unfold digestIf. cbn [length Nat.ltb Nat.leb]. by rewrite Hkey.
Qed.

(** X12: an entry stored for a list of tables is gone once a mutation of
    one of its tables is notified: the notification resolves, the value
    record and the index record under the mutated table are removed, and
    the next lookup misses. The table name and the fingerprint must not be
    empty, and for a tag the digest must not be the sentinel ["NAI"]. *)
Theorem put_onMutate_tables_get self now now' key response tables isTag
    config keyEnc tablesKey expiry params table encoded b :
  encode key = Ok keyEnc → key ≠ [] →
  makeTablesKey tables = Ok tablesKey →
  table ∈ tables → table ≠ [] →
  (isTag = true → tablesKey ≠ str "NAI") →
  putExpiry self now config (items b)
    (valueKey true isTag keyEnc (Some tablesKey)) = Some expiry →
  (now < expiry)%Z →
  normalizeTags (MutationOption.tags params) = [] →
  mapR encode (normalizeTables (MutationOption.tables params)) = Ok encoded →
  table ∈ normalizeTables (MutationOption.tables params) →
  ∃ b1 b2 b3,
    put self now key response tables isTag config b = (Ok (), b1) ∧
    onMutate params b1 = (Ok (), b2) ∧
    items b2 !! valueKey true isTag keyEnc (Some tablesKey) = None ∧
    (∀ built, indexKey table tablesKey isTag keyEnc = Ok built →
              items b2 !! built = None) ∧
    get self now' key tables isTag None b2 = (Ok None, b3).
Proof.
  intros Henc Hkne Hkey Hin Hne Hnai Hexp Hlive Htags Hencoded Hmut.
  assert (Htables : tables ≠ []) by (intros ->; by apply elem_of_nil in Hin).
  destruct (digestIf_nonempty _ _ Htables Hkey) as [Hdig Hauto].
  pose proof (makeTablesKey_nonempty _ _ _ Hkey Hin Hne) as Hdne.
  rewrite <- Hauto in Hexp.
  destruct (put_stores self now key response tables isTag config
              keyEnc (Some tablesKey) expiry b) as (b1 & Hput & Hslot & Hmap);
    [done..|].
  destruct (digestIf_encoded _ _ Hdig) as [stored Hstored].
  destruct (mapR_Ok_elem _ _ _ table Hstored Hin) as (te & Hte & _).
  pose proof (put_live_index self now key response tables isTag config
                keyEnc (Some tablesKey) expiry table
                (indexKeyOf te tablesKey isTag keyEnc) b
                Henc Hdig Hexp Hlive Hin) as Hindex.
  cbn [default from_option] in Hindex.
  rewrite indexKey_indexKeyOf, Hte, Hput in Hindex. cbn [snd] in Hindex.
  specialize (Hindex Hdne eq_refl).
  destruct (mapR_encode_arrayFromSet _ _ Hencoded) as [swept Hswept].
  destruct (invalidateTables_run _ swept b1 Hswept)
    as (keys & j & Hrun & Hkeys).
  assert (Hte_in : te ∈ swept).
  { apply (proj2 (arrayFromSet_elem _ _)) in Hmut.
    destruct (mapR_Ok_elem _ _ _ table Hswept Hmut) as (te' & Hte' & ?).
    congruence. }
  assert (Hsome : is_Some (items b1 !! indexKeyOf te tablesKey isTag keyEnc))
    by (rewrite Hindex; eauto).
  assert (Hte0 : te ≠ []) by (intros ->; by apply encode_nil_inv in Hte).
  assert (Hke0 : keyEnc ≠ []) by (intros ->; by apply encode_nil_inv in Henc).
  destruct (swept_indexed swept keys b1 te isTag keyEnc tablesKey
              (encode_noColon _ _ Hte) (makeTablesKey_noColon _ _ Hkey)
              (encode_noColon _ _ Henc) Hte0 Hdne Hke0 Hkeys Hte_in Hsome)
    as [Hik Hvk].
  set (b2 := Storage.mk (removeAll (keys ++ collectValueKeys keys [])
                                   (items b1)) j) in *.
  assert (Hgone : items b2 !! valueKey true isTag keyEnc (Some tablesKey)
                  = None) by by apply removeAll_lookup_in.
  destruct (get_miss self now' key tables isTag None b2) as (b3 & Hget & _).
  { unfold found. rewrite Henc. cbn [rbind]. destruct isTag.
    - assert (Hstr : stringAt (items b2) (tagMapKey keyEnc)
                     = Some tablesKey).
      { unfold stringAt.
        replace (items b2 !! tagMapKey keyEnc)
          with (items b1 !! tagMapKey keyEnc).
        - rewrite Hmap by done. by destruct tablesKey.
        - rewrite <- (invalidateTables_tagMapKey
                       (arrayFromSet (normalizeTables
                                        (MutationOption.tables params)))
                       b1 keyEnc).
          by rewrite Hrun. }
      rewrite Hstr. destruct tablesKey as [|c d]; [done|].
      rewrite bool_decide_eq_false_2 by by apply Hnai.
      cbn [negb]. unfold entryAt. by rewrite Hgone.
    - cbn [default from_option]. rewrite Hdig. cbn [rbind].
      rewrite Hauto. unfold entryAt. by rewrite Hgone. }
  exists b1, b2, b3. split; [done|].
  split; [by rewrite (onMutate_tables_only params)|]. split; [done|].
  split; [|done].
  intros built Hbuilt. rewrite indexKey_indexKeyOf, Hte in Hbuilt.
  injection Hbuilt as <-. by apply removeAll_lookup_in.
Qed.




(** Computations that only remove, and their closure under the ways the
    adapter composes them. *)
Lemma removesOnly_ret {A} (a : A) : removesOnly (V:=V) (ret a).
Proof. by intros b k v. Qed.

Lemma removesOnly_lift {A} (r : result A) : removesOnly (V:=V) (lift r).
Proof. by intros b k v. Qed.

Lemma removesOnly_bind {A B} (m : M V A) (f : A → M V B) :
  removesOnly m → (∀ a, removesOnly (f a)) → removesOnly (bind m f).
Proof.
  intros Hm Hf b k v. unfold bind.
  pose proof (Hm b k v) as Hm'.
  destruct (m b) as [[a|e] b']; cbn [snd] in *; [|done].
  intros Hk. by apply Hm', (Hf a b').
Qed.

Lemma removesOnly_getEntry key : removesOnly (V:=V) (getEntry key).
Proof. by intros b k v. Qed.

Lemma removesOnly_getString key : removesOnly (V:=V) (getString key).
Proof. by intros b k v. Qed.

Lemma removesOnly_getKeys prefix : removesOnly (V:=V) (getKeys prefix).
Proof. by intros b k v. Qed.

Lemma removesOnly_removeItem key : removesOnly (V:=V) (removeItem key).
Proof.
  intros b k v. cbn. intros H. by apply lookup_delete_Some in H as [_ ?].
Qed.

Lemma removesOnly_forEach {A} (f : A → M V unit) l :
  (∀ x, removesOnly (f x)) → removesOnly (forEach f l).
Proof.
  intros Hf. induction l as [|x l IH]; cbn [forEach].
  - apply removesOnly_ret.
  - apply removesOnly_bind; [apply Hf | by intros _].
Qed.

Lemma removesOnly_promiseAll (branches : list (M V unit)) :
  Forall removesOnly branches → removesOnly (promiseAll branches).
Proof.
  induction 1 as [|m ms Hm _ IH]; cbn [promiseAll].
  - apply removesOnly_ret.
  - intros b k v. pose proof (Hm b k v) as Hm'.
    destruct (m b) as [[[]|e] b']; cbn [snd] in *;
      intros Hk; by apply Hm', (IH b').
Qed.

Ltac removes_only :=
  repeat first
    [ apply removesOnly_ret | apply removesOnly_lift
    | apply removesOnly_getEntry | apply removesOnly_getString
    | apply removesOnly_getKeys | apply removesOnly_removeItem
    | apply removesOnly_bind; [|intros ?]
    | apply removesOnly_forEach; intros ?
    | apply removesOnly_promiseAll; repeat apply Forall_cons_2;
      [..|apply Forall_nil_2]
    | match goal with
      | |- removesOnly (if ?c then _ else _) => destruct c
      | |- removesOnly (match ?x with _ => _ end) => destruct x
      end ].

Lemma removesOnly_dropEntry (params : DropParams.t V) :
  removesOnly (dropEntry params).
Proof. unfold dropEntry. cbv zeta. removes_only. Qed.

Lemma removesOnly_get self now key tables isTag hint :
  removesOnly (V:=V) (get self now key tables isTag hint).
Proof.
  unfold get. apply removesOnly_bind; [apply removesOnly_lift|intros keyEnc].
  destruct isTag; cbv zeta; removes_only; apply removesOnly_dropEntry.
Qed.

Lemma removesOnly_invalidateTag tag : removesOnly (V:=V) (invalidateTag tag).
Proof. unfold invalidateTag. cbv zeta. removes_only. Qed.

Lemma removesOnly_collectIndexKeys tables indexKeys :
  removesOnly (V:=V) (collectIndexKeys tables indexKeys).
Proof.
  revert indexKeys. induction tables as [|t ts IH]; intros indexKeys;
    cbn [collectIndexKeys]; [apply removesOnly_ret|].
  cbv zeta. removes_only. apply IH.
Qed.

Lemma removesOnly_onMutate params : removesOnly (V:=V) (onMutate params).
Proof.
  unfold onMutate. cbv zeta. apply removesOnly_promiseAll.
  apply Forall_cons_2; [|apply Forall_cons_2; [|apply Forall_nil_2]].
  - unfold invalidateTags. destruct (normalizeTags _); [apply removesOnly_ret|].
    apply removesOnly_promiseAll, Forall_forall.
    intros m (tag & -> & _)%list_elem_of_fmap.
    apply removesOnly_invalidateTag.
  - unfold invalidateTables. destruct (arrayFromSet _); [apply removesOnly_ret|].
    apply removesOnly_bind; [apply removesOnly_collectIndexKeys|].
    intros [|k keys]; [apply removesOnly_ret|].
    apply removesOnly_forEach. intros ?. apply removesOnly_removeItem.
Qed.

(** X16: lookups and mutation notifications never write: whatever they
    return, every record the store holds afterwards was there before, with
    the same content. *)
Theorem get_and_onMutate_remove_only self now key tables isTag hint params b
    k v :
  (items (get self now key tables isTag hint b).2 !! k = Some v →
   items b !! k = Some v) ∧
  (items (onMutate params b).2 !! k = Some v → items b !! k = Some v).
Proof.
  split; [apply removesOnly_get | apply removesOnly_onMutate].
Qed.

(** X17: an ill-formed fingerprint or tag (one with an unpaired surrogate)
    makes a lookup, a store and a tag invalidation reject with [URIError]
    before the backend is called. *)
Theorem ill_formed_key_rejected self now key response tables isTag config
    hint b :
  inRange key → isWellFormed key = false →
  get self now key tables isTag hint b = (Throw URIError, b) ∧
  put self now key response tables isTag config b = (Throw URIError, b) ∧
  invalidateTag key b = (Throw URIError, b).
Proof.
  intros Hrange Hill.
  pose proof (encode_ill_formed key Hrange Hill) as Henc.
  fold (encode key) in Henc.
  split; [|split].
  - unfold get. unfold bind at 1, lift at 1. by rewrite Henc.
  - unfold put. cbv zeta. unfold bind at 1, lift at 1. by rewrite Henc.
  - unfold invalidateTag. unfold bind at 1, lift at 1. by rewrite Henc.
Qed.

Lemma mapR_encode_ill_formed tables table :
  table ∈ tables → inRange table → isWellFormed table = false →
  mapR encode tables = Throw URIError.
Proof.
  intros Hin Hrange Hill.
  pose proof (encode_ill_formed table Hrange Hill) as Henc.
  fold (encode table) in Henc.
  destruct (mapR encode tables) as [encoded|[]] eqn:Hmap; [|done].
  destruct (mapR_Ok_elem _ _ _ table Hmap Hin) as (te & Hte & _). congruence.
Qed.

(** X18: an ill-formed table name makes a store and an auto-invalidated
    lookup reject before the backend is called, and makes a sweep reject
    without removing anything. *)
Theorem ill_formed_table_rejected self now key keyEnc response tables table
    isTag config b :
  encode key = Ok keyEnc →
  table ∈ tables → inRange table → isWellFormed table = false →
  put self now key response tables isTag config b = (Throw URIError, b) ∧
  get self now key tables false None b = (Throw URIError, b) ∧
  (invalidateTables tables b).1 = Throw URIError ∧
  items (invalidateTables tables b).2 = items b.
Proof.
  intros Henc Hin Hrange Hill.
  pose proof (mapR_encode_ill_formed _ _ Hin Hrange Hill) as Hmap.
  assert (Hkey : makeTablesKey tables = Throw URIError).
  { unfold makeTablesKey. destruct tables; [by apply elem_of_nil in Hin|].
    by rewrite Hmap. }
  assert (Hauto : (0 <? length tables)%nat = true).
  { destruct tables; [by apply elem_of_nil in Hin|done]. }
  split; [|split].
  - unfold put. cbv zeta. unfold bind at 1, lift at 1. rewrite Henc.
    unfold bind at 1, lift at 1. by rewrite Hauto, Hkey.
  - unfold get. unfold bind at 1, lift at 1. rewrite Henc.
    cbv zeta. cbn [default from_option].
    unfold bind at 1, lift at 1. by rewrite Hauto, Hkey.
  - destruct (invalidateTables_throw_run tables URIError b Hmap)
      as ([] & j & Hrun).
    by rewrite Hrun.
Qed.

Lemma promiseAll_Ok_inv (m : M V unit) ms b b' :
  promiseAll (m :: ms) b = (Ok (), b') →
  ∃ b1, m b = (Ok (), b1) ∧ promiseAll ms b1 = (Ok (), b').
Proof.
  cbn [promiseAll]. destruct (m b) as [[[]|e] b1]; [|done]. eauto.
Qed.

Lemma invalidateTag_Ok_tagMap tag keyEnc b b' :
  encode tag = Ok keyEnc →
  invalidateTag tag b = (Ok (), b') →
  items b' !! tagMapKey keyEnc = None.
Proof.
  intros Henc. unfold invalidateTag.
  unfold bind at 1. unfold lift at 1. rewrite Henc.
  unfold bind at 1. rewrite getString_run.
  assert (Hnon : ∀ b0,
    promiseAll [removeItem (valueKey false true keyEnc None);
                removeItem (tagMapKey keyEnc)] b0 = (Ok (), b') →
    items b' !! tagMapKey keyEnc = None).
  { intros b0 [= <-]. cbn [items]. apply lookup_delete_eq. }
  destruct (stringAt (items b) (tagMapKey keyEnc)) as [[|c k]|];
    [by apply Hnon| |by apply Hnon].
  destruct (bool_decide (c :: k = str "NAI")); [by apply Hnon|].
  unfold bind at 1. unfold lift at 1.
  destruct (decodeTablesKey (Some (c :: k))) as [decoded|]; [|done].
  unfold bind at 1. unfold removeItem at 1.
  unfold bind at 1.
  match goal with
  | |- context [forEach ?f decoded ?b0] => destruct (forEach f decoded b0)
                                             as [[[]|e] b1]; [|done]
  end.
  intros [= <-]. cbn [items]. apply lookup_delete_eq.
Qed.

Lemma promiseAll_invalidateTag_Ok tags tag keyEnc b b' :
  promiseAll (map invalidateTag tags) b = (Ok (), b') →
  tag ∈ tags → encode tag = Ok keyEnc →
  items b' !! tagMapKey keyEnc = None.
Proof.
  intros Hrun Hin Henc. revert b Hrun.
  induction tags as [|t ts IH]; intros b Hrun;
    [by apply elem_of_nil in Hin|].
  cbn [map] in Hrun. apply promiseAll_Ok_inv in Hrun as (b1 & Ht & Hts).
  destruct (decide (tag ∈ ts)) as [Hlater|Hlater]; [by eapply IH|].
  apply elem_of_cons in Hin as [->|]; [|done].
  pose proof (invalidateTag_Ok_tagMap _ _ _ _ Henc Ht) as Hnone.
  destruct (items b' !! tagMapKey keyEnc) as [v|] eqn:Hv; [|done].
  assert (Hrem : removesOnly (V:=V) (promiseAll (map invalidateTag ts))).
  { apply removesOnly_promiseAll, Forall_forall.
    intros m (tag' & -> & _)%list_elem_of_fmap.
    apply removesOnly_invalidateTag. }
  specialize (Hrem b1 (tagMapKey keyEnc) v). rewrite Hts in Hrem.
  cbn [snd] in Hrem. rewrite Hrem in Hnone by done. done.
Qed.

(** X19: whenever a mutation notification resolves, no notified tag keeps
    its tag-map record, whatever else the notification names, and the next
    lookup of the tag misses. *)
Theorem onMutate_clears_tags self now params tag keyEnc tables hint b b' :
  onMutate params b = (Ok (), b') →
  tag ∈ normalizeTags (MutationOption.tags params) →
  encode tag = Ok keyEnc →
  items b' !! tagMapKey keyEnc = None ∧
  ∃ b'', get self now tag tables true hint b' = (Ok None, b'').
Proof.
  intros Hrun Hin Henc.
  assert (Hnone : items b' !! tagMapKey keyEnc = None).
  { unfold onMutate in Hrun. cbv zeta in Hrun.
    apply promiseAll_Ok_inv in Hrun as (b1 & Htags & Htables).
    apply promiseAll_Ok_inv in Htables as (b2 & Htables & [= <-]).
    unfold invalidateTags in Htags.
    destruct (normalizeTags (MutationOption.tags params)) as [|t ts] eqn:Hn;
      [by apply elem_of_nil in Hin|].
    pose proof (promiseAll_invalidateTag_Ok (t :: ts) tag keyEnc b b1
                  Htags Hin Henc) as Hb1.
    destruct (items b2 !! tagMapKey keyEnc) as [v|] eqn:Hv; [|done].
    assert (Hrem : removesOnly
              (invalidateTables (V:=V)
                 (arrayFromSet
                    (normalizeTables (MutationOption.tables params))))).
    { unfold invalidateTables.
      destruct (arrayFromSet _); [apply removesOnly_ret|].
      apply removesOnly_bind; [apply removesOnly_collectIndexKeys|].
      intros [|k keys]; [apply removesOnly_ret|].
      apply removesOnly_forEach. intros ?. apply removesOnly_removeItem. }
    specialize (Hrem b1 (tagMapKey keyEnc) v). rewrite Htables in Hrem.
    cbn [snd] in Hrem. rewrite Hrem in Hb1 by done. done. }
  split; [done|].
  destruct (get_miss self now tag tables true hint b') as (b'' & Hget & _);
    [|by exists b''].
  unfold found. rewrite Henc. cbn [rbind]. unfold stringAt. by rewrite Hnone.
Qed.

(** X20: an entry stored without tables is out of reach of table
    mutations: after a notification that names no tag, whatever tables it
    names and whether it resolves or rejects, the entry is still
    returned. *)
Theorem put_without_tables_survives self now now' key response isTag config
    keyEnc expiry params b :
  encode key = Ok keyEnc →
  putExpiry self now config (items b) (valueKey false isTag keyEnc None)
    = Some expiry →
  (now < expiry)%Z → (now' < expiry)%Z →
  normalizeTags (MutationOption.tags params) = [] →
  ∃ b1 b3,
    put self now key response [] isTag config b = (Ok (), b1) ∧
    get self now' key [] isTag None (onMutate params b1).2
      = (Ok (Some response), b3).
Proof.
  intros Henc Hexp Hlive Hlive' Htags.
  destruct (put_stores self now key response [] isTag config
              keyEnc None expiry b Henc eq_refl Hexp Hlive)
    as (b1 & Hput & Hslot & Hmap).
  cbn [length Nat.ltb Nat.leb] in Hslot.
  set (entry := CacheEntry.mk response (Some expiry) None) in *.
  set (b2 := (onMutate params b1).2).
  assert (Hkeep : ∀ a rest,
            noSep 58 a → a ≠ INDEX_PREFIX → a ≠ VALUE_AUTO_PREFIX →
            items b2 !! (a ++ 58%N :: rest) = items b1 !! (a ++ 58%N :: rest)).
  { intros a rest Ha Hidx Hval. subst b2.
    rewrite (onMutate_tables_only params) by done.
    by apply invalidateTables_far. }
  assert (Hslot2 : items b2 !! valueKey false isTag keyEnc None
                   = Some (VEntry entry)).
  { rewrite <- Hslot.
    apply (Hkeep VALUE_NON_AUTO_PREFIX); [apply prefixes_noSep|done..]. }
  destruct (get_hit self now' key [] isTag None false None keyEnc entry b2)
    as (b3 & Hget & _).
  - unfold found. rewrite Henc. cbn [rbind]. destruct isTag.
    + assert (Hstr : stringAt (items b2) (tagMapKey keyEnc)
                     = Some (str "NAI")).
      { unfold stringAt.
        replace (items b2 !! tagMapKey keyEnc)
          with (items b1 !! tagMapKey keyEnc).
        - by rewrite Hmap.
        - symmetry. apply (Hkeep TAG_MAP_PREFIX);
            [apply prefixes_noSep|done..]. }
      rewrite Hstr. remember (str "NAI") as nai eqn:Hnai.
      destruct nai as [|c k]; [by vm_compute in Hnai|].
      rewrite bool_decide_eq_true_2 by done. cbn [negb].
      unfold entryAt. by rewrite Hslot2.
    + cbn [default from_option length Nat.ltb Nat.leb]. unfold digestIf.
      cbn [rbind]. unfold entryAt. by rewrite Hslot2.
  - unfold isExpired. cbn. apply Z.leb_gt. lia.
  - by exists b1, b3.
Qed.

(** X21: a lookup answers with a value only when its slot holds an entry
    with that value that is not expired, and then it leaves every record
    as it is: an expired entry is never served. *)
Theorem get_value_is_live self now key tables isTag hint value b b' :
  get self now key tables isTag hint b = (Ok (Some value), b') →
  ∃ keyEnc auto tablesKey entry,
    encode key = Ok keyEnc ∧
    items b !! valueKey auto isTag keyEnc tablesKey = Some (VEntry entry) ∧
    CacheEntry.value entry = value ∧
    isExpired now entry = false ∧
    items b' = items b.
Proof.
  unfold get. unfold bind at 1. unfold lift at 1.
  destruct (encode key) as [keyEnc|]; [|done].
  assert (Hentry : ∀ vk b0 entry,
            entryAt (items b0) vk = Some entry →
            items b0 !! vk = Some (VEntry entry)).
  { intros vk b0 entry. unfold entryAt.
    destruct (items b0 !! vk) as [[]|]; congruence. }
  assert (Hdrop : ∀ params b0,
            bind (dropEntry params) (λ _, ret None) b0
            ≠ (Ok (Some value), b')).
  { intros params b0. unfold bind.
    by destruct (dropEntry params b0) as [[|] ?]. }
  destruct isTag.
  - unfold bind at 1. rewrite getString_run.
    destruct (stringAt (items b) (tagMapKey keyEnc)) as [[|c k]|];
      [done| |done].
    cbv zeta. unfold bind at 1. rewrite getEntry_run. cbn [items record].
    destruct (entryAt (items b) _) as [entry|] eqn:He; [|done].
    destruct (isExpired now entry) eqn:Hexp.
    + unfold bind at 1. unfold lift at 1.
      destruct (match _ with Some (_ :: _) => _ | _ => _ end); [|done].
      intros H. by apply Hdrop in H.
    + intros [= <- <-]. eexists keyEnc, _, _, entry.
      split; [done|]. split; [by apply (Hentry _ b)|]. done.
  - cbv zeta. unfold bind at 1. unfold lift at 1.
    destruct (if default (0 <? length tables)%nat hint
              then rmap Some (makeTablesKey tables) else Ok None)
      as [tablesKey|]; [|done].
    unfold bind at 1. rewrite getEntry_run. cbn [items record].
    destruct (entryAt (items b) _) as [entry|] eqn:He; [|done].
    destruct (isExpired now entry) eqn:Hexp.
    + intros H. by apply Hdrop in H.
    + intros [= <- <-]. eexists keyEnc, _, _, entry.
      split; [done|]. split; [by apply (Hentry _ b)|]. done.
Qed.

End WithPayload.
End FlowFacts.

(** ** The further properties at inputs of the test suite *)

Module ScenarioMoreFacts.
Import Js Uri Utils Storage UnstorageCache Spec SpecMore Scenario ScenarioMore.
Import CacheFacts KeyShapeFacts SweepFacts StoreFacts FlowFacts.

(** Range checks by evaluation. *)
Lemma inRange_forallb s :
  forallb (λ c, (c <? 0x10000)%N) s = true → inRange s.
Proof.
  intros Hall. apply Forall_forall. intros c Hc.
  rewrite forallb_forall in Hall. apply N.ltb_lt, Hall.
  by apply list_elem_of_In.
Qed.

Lemma Forall_inRange_forallb l :
  forallb (forallb (λ c, (c <? 0x10000)%N)) l = true → Forall inRange l.
Proof.
  intros Hall. apply Forall_forall. intros s Hs.
  rewrite forallb_forall in Hall. apply inRange_forallb, Hall.
  by apply list_elem_of_In.
Qed.

Ltac in_range :=
  first [apply inRange_forallb | apply Forall_inRange_forallb];
  vm_compute; reflexivity.

Lemma decodeTablesKey_makeTablesKey_perm_witness :
  ∃ decoded,
    decodeTablesKey (Some (str "posts,users")) = Ok decoded ∧
    decoded ≡ₚ filter (λ table, table ≠ []) [users; posts].
Proof.
  apply (decodeTablesKey_makeTablesKey_perm [users; posts]
           (str "posts,users")).
  - in_range.
  - vm_compute. reflexivity.
Defined.

Lemma makeTablesKey_eq_iff_Permutation_witness :
  str "posts,users" = str "posts,users" ↔ [users; posts] ≡ₚ [posts; users].
Proof.
  apply (makeTablesKey_eq_iff_Permutation [users; posts] [posts; users]
           (str "posts,users") (str "posts,users")).
  - in_range.
  - in_range.
  - discriminate.
  - discriminate.
  - vm_compute. reflexivity.
  - vm_compute. reflexivity.
Defined.

Lemma encode_injective_witness :
  str "a b" = str "a b" ∧ (str "a%20b" = [] ↔ str "a b" = []).
Proof.
  apply (encode_injective (str "a b") (str "a b") (str "a%20b")).
  - in_range.
  - in_range.
  - vm_compute. reflexivity.
  - vm_compute. reflexivity.
Defined.

Lemma valueKey_identifies_slot_witness :
  (valueKey true false (str "k1") (Some users)
     = valueKey false false (str "k1") None →
   true = false ∧ false = false ∧ str "k1" = str "k1" ∧ Some users = None) ∧
  (∀ tagEnc, valueKey true false (str "k1") (Some users) ≠ tagMapKey tagEnc) ∧
  (∀ table tablesKey isTag keyEnc,
     indexKey table tablesKey isTag keyEnc
       ≠ Ok (valueKey true false (str "k1") (Some users))).
Proof.
  apply (valueKey_identifies_slot (str "k1") (str "k1") (str "k1") (str "k1")
           true false [users] [] (Some users) None false false).
  - reflexivity.
  - reflexivity.
  - vm_compute. reflexivity.
  - reflexivity.
Defined.

Lemma parseIndexKey_indexKey_witness :
  ∃ built,
    indexKey users (str "posts,users") false (str "k1") = Ok built ∧
    parseIndexKey built =
      if truthy users && truthy (str "posts,users") && truthy (str "k1")
      then Some (mkParsed users (str "posts,users") false (str "k1"))
      else None.
Proof.
  apply (parseIndexKey_indexKey users users [users; posts]
           (str "posts,users") false (str "k1") (str "k1")).
  - reflexivity.
  - vm_compute. reflexivity.
  - reflexivity.
Defined.

Lemma invalidateTables_removes_indexed_witness :
  ∃ b',
    invalidateTables [users] stored = (Ok (), b') ∧
    items b' !! str "__CTS__:users:posts,users:q:k1" = None ∧
    items b' !! valueKey true false (str "k1") (Some (str "posts,users"))
      = None.
Proof.
  apply (invalidateTables_removes_indexed [users] [users] users
           (str "k1") (str "k1") [users; posts] (str "posts,users") false
           (str "__CTS__:users:posts,users:q:k1") stored).
  - reflexivity.
  - left.
  - discriminate.
  - reflexivity.
  - discriminate.
  - vm_compute. reflexivity.
  - discriminate.
  - reflexivity.
  - vm_compute. eauto.
Defined.

Lemma invalidateTables_keeps_unindexed_witness :
  items (invalidateTables [comments] stored).2
    !! valueKey true false (str "k1") (Some (str "posts,users"))
  = items stored
    !! valueKey true false (str "k1") (Some (str "posts,users")).
Proof.
  apply (invalidateTables_keeps_unindexed [comments] (str "k1") (str "k1")
           [users; posts] (str "posts,users") false stored).
  - reflexivity.
  - vm_compute. reflexivity.
  - right. right. intros table built Hin Hbuilt.
    apply list_elem_of_singleton in Hin. subst table.
    vm_compute in Hbuilt. injection Hbuilt as <-.
    vm_compute. reflexivity.
Defined.

Lemma invalidateTables_spares_witness :
  items (invalidateTables [users] stored).2
    !! str "__CTS__:posts:posts,users:q:k1"
  = items stored !! str "__CTS__:posts:posts,users:q:k1".
Proof.
  destruct (invalidateTables_spares [users] stored) as (_ & _ & Hindex).
  apply (Hindex posts (str "posts,users") false (str "k1")).
  - in_range.
  - in_range.
  - intros Hin. apply list_elem_of_singleton in Hin. discriminate Hin.
  - reflexivity.
Defined.


Lemma put_ttl_hint_witness :
  ∃ calls,
    journal (put cache 1000 (str "tagged") 1%Z [users] true px50 empty).2
      = journal empty ++ calls ∧
    (∃ entry ttl,
       SetItem (valueKey (0 <? length [users])%nat true (str "tagged")
                         (Some users))
               (VEntry entry) ttl ∈ calls) ∧
    ∀ k v ttl,
      SetItem k v ttl ∈ calls →
      (∃ seconds,
         ttl = Some seconds ∧ (1 ≤ seconds)%Z ∧
         (1000 * (seconds - 1) < 1050 - 1000 ≤ 1000 * seconds)%Z) ∧
      match v with
      | VEntry entry => CacheEntry.expiresAt entry = Some 1050%Z
      | VNumber n => n = 1050%Z
      | VString _ => True
      end.
Proof.
  apply (put_ttl_hint cache 1000 (str "tagged") 1%Z [users] true px50
           (str "tagged") (Some users) 1050 empty).
  - reflexivity.
  - vm_compute. reflexivity.
  - vm_compute. reflexivity.
  - lia.
Defined.

Lemma put_onMutate_tables_get_witness :
  ∃ b1 b2 b3,
    put cache 1000 (str "k1") 1%Z [users; posts] false ex60 empty
      = (Ok (), b1) ∧
    onMutate sweepUsers b1 = (Ok (), b2) ∧
    items b2 !! valueKey true false (str "k1") (Some (str "posts,users"))
      = None ∧
    (∀ built, indexKey users (str "posts,users") false (str "k1") = Ok built →
              items b2 !! built = None) ∧
    get cache 2000 (str "k1") [users; posts] false None b2 = (Ok None, b3).
Proof.
  apply (put_onMutate_tables_get cache 1000 2000 (str "k1") 1%Z
           [users; posts] false ex60 (str "k1") (str "posts,users") 61000
           sweepUsers users [users] empty).
  - reflexivity.
  - discriminate.
  - vm_compute. reflexivity.
  - left.
  - discriminate.
  - discriminate.
  - vm_compute. reflexivity.
  - lia.
  - reflexivity.
  - reflexivity.
  - left.
Defined.




Lemma get_and_onMutate_remove_only_witness :
  (items (get cache 62000 (str "k1") [users; posts] false None stored).2
     !! str "__CTS__:posts:posts,users:q:k1" = Some (VNumber 61000) →
   items stored !! str "__CTS__:posts:posts,users:q:k1"
     = Some (VNumber 61000)) ∧
  (items (onMutate sweepUsers stored).2
     !! str "__CTS__:posts:posts,users:q:k1" = Some (VNumber 61000) →
   items stored !! str "__CTS__:posts:posts,users:q:k1"
     = Some (VNumber 61000)).
Proof.
  apply (get_and_onMutate_remove_only cache 62000 (str "k1") [users; posts]
           false None sweepUsers stored
           (str "__CTS__:posts:posts,users:q:k1") (VNumber 61000)).
Defined.

Lemma ill_formed_key_rejected_witness :
  get cache 1000 lone [] false None empty = (Throw URIError, empty) ∧
  put cache 1000 lone 1%Z [] false None empty = (Throw URIError, empty) ∧
  invalidateTag lone empty = (Throw URIError, empty).
Proof.
  apply (ill_formed_key_rejected cache 1000 lone 1%Z [] false None None
           empty).
  - in_range.
  - reflexivity.
Defined.

Lemma ill_formed_table_rejected_witness :
  put cache 1000 (str "k1") 1%Z [users; lone] false None stored
    = (Throw URIError, stored) ∧
  get cache 1000 (str "k1") [users; lone] false None stored
    = (Throw URIError, stored) ∧
  (invalidateTables [users; lone] stored).1 = Throw URIError ∧
  items (invalidateTables [users; lone] stored).2 = items stored.
Proof.
  apply (ill_formed_table_rejected cache 1000 (str "k1") (str "k1") 1%Z
           [users; lone] lone false None stored).
  - reflexivity.
  - right. left.
  - in_range.
  - reflexivity.
Defined.

Lemma onMutate_clears_tags_witness :
  items (after (onMutate notifyTagged) tagged) !! tagMapKey (str "tagged")
    = None ∧
  ∃ b'', get cache 1010 (str "tagged") [users] true None
             (after (onMutate notifyTagged) tagged) = (Ok None, b'').
Proof.
  apply (onMutate_clears_tags cache 1010 notifyTagged (str "tagged")
           (str "tagged") [users] None tagged
           (after (onMutate notifyTagged) tagged)).
  - vm_compute. reflexivity.
  - left.
  - reflexivity.
Defined.

Lemma put_without_tables_survives_witness :
  ∃ b1 b3,
    put cache 1000 (str "k1") 1%Z [] false ex60 empty = (Ok (), b1) ∧
    get cache 2000 (str "k1") [] false None (onMutate sweepUsers b1).2
      = (Ok (Some 1%Z), b3).
Proof.
  apply (put_without_tables_survives cache 1000 2000 (str "k1") 1%Z false
           ex60 (str "k1") 61000 sweepUsers empty).
  - reflexivity.
  - vm_compute. reflexivity.
  - lia.
  - lia.
  - reflexivity.
Defined.

Lemma get_value_is_live_witness :
  ∃ keyEnc auto tablesKey entry,
    encode (str "k1") = Ok keyEnc ∧
    items stored !! valueKey auto false keyEnc tablesKey
      = Some (VEntry entry) ∧
    CacheEntry.value entry = 1%Z ∧
    isExpired 2000 entry = false ∧
    items (after (get cache 2000 (str "k1") [users; posts] false None) stored)
      = items stored.
Proof.
  apply (get_value_is_live cache 2000 (str "k1") [users; posts] false None
           1%Z stored
           (after (get cache 2000 (str "k1") [users; posts] false None)
                  stored)).
  vm_compute. reflexivity.
Defined.


End ScenarioMoreFacts.
